(** * Audit of call-ins and call-outs: the [hardis:project:audit:callincallout] command

    A shallow embedding of [src/commands/hardis/project/audit/callincallout.ts]
    and the properties of its scan / match / aggregate / sort / report pipeline,
    followed by one of the command [hardis:org:diagnose:unusedusers].

    Conventions of the embedding
    - a JavaScript string is a [string]: a sequence of code units, here the
      8-bit ones of [ascii];
    - a JavaScript number that counts something is a [nat], stored in an
      object as [VNum] of a [Z];
    - an object literal with a fixed shape is a [Record]; an object that the
      program mutates or copies is a [gmap string val] living in a heap;
    - an array that the program mutates in place is a heap cell holding the
      references to its elements;
    - [await]ed calls that may reject are computations in the monad [M]. *)

From Stdlib Require Import Ascii ZArith Lia Permutation Sorted.
From Stdlib Require String.
From stdpp Require Import base option list gmap strings sorting pretty.

Local Open Scope Z_scope.
Local Open Scope nat_scope.

Global Arguments String.prefix : simpl never.

(** ** JavaScript string primitives used by the command *)

Module JsString.

(** [s.startsWith(p)] *)
Definition startsWith (s p : string) : bool := String.prefix p s.

(** [s.includes(sub)] *)
Fixpoint includes (s sub : string) : bool :=
  String.prefix sub s
  || match s with
     | EmptyString => false
     | String _ s' => includes s' sub
     end.

(** [s.indexOf(sub)], with [None] for [-1]. *)
Fixpoint indexOf (s sub : string) : option nat :=
  if String.prefix sub s then Some 0
  else match s with
       | EmptyString => None
       | String _ s' => S <$> indexOf s' sub
       end.

(** [s.split(sep)] returns at least one piece.  [split_go sep skip s] is the
    piece under construction and the pieces after it, [skip] being the number
    of code units of a separator occurrence still to be stepped over. *)
Fixpoint split_go (sep : string) (skip : nat) (s : string) : string * list string :=
  match s with
  | EmptyString => (EmptyString, [])
  | String a s' =>
      match skip with
      | S k => split_go sep k s'
      | O =>
          if String.prefix sep s
          then (EmptyString,
                 let r := split_go sep (String.length sep - 1) s' in r.1 :: r.2)
          else let r := split_go sep 0 s' in (String a r.1, r.2)
      end
  end.

Definition split (s sep : string) : list string :=
  match sep with
  | EmptyString => (fun c => String c EmptyString) <$> String.list_ascii_of_string s
  | _ => let r := split_go sep 0 s in r.1 :: r.2
  end.

(** [arr.join(sep)] on an array of strings *)
Definition join (sep : string) (l : list string) : string := String.concat sep l.

(** [s.slice(i)] and [s.slice(0, i)] *)
Fixpoint drop (n : nat) (s : string) : string :=
  match n, s with
  | S k, String _ s' => drop k s'
  | _, _ => s
  end.

Definition take (n : nat) (s : string) : string := String.substring 0 n s.

End JsString.

Import JsString.

(** ** Regular expressions

    The fragment of JavaScript regular expressions that the command's
    catchers are written in: a sequence of literal characters, greedy
    repetitions of a character class ([[A-Za-z0-9_-]*]) and the lazy capture
    group [(.*?)].  A pattern carries its [i] and [s] flags; every pattern of
    the command also has [g] (all matches are enumerated, see [matchAll]) and
    [m] (which only changes [^] and [$], absent from the fragment). *)

Module RegExp.

Inductive node :=
  | Lit (c : ascii)
  | StarSet (ranges : list (ascii * ascii))
  | LazyGroup.

Record t := mk {
  source : list node;
  ignoreCase : bool;
  dotAll : bool;
}.

Definition code (c : ascii) : nat := nat_of_ascii c.

Definition toUpper (c : ascii) : ascii :=
  if (97 <=? code c) && (code c <=? 122) then ascii_of_nat (code c - 32) else c.

Definition toLower (c : ascii) : ascii :=
  if (65 <=? code c) && (code c <=? 90) then ascii_of_nat (code c + 32) else c.

(** Comparison of a pattern character with a text character.  Under [i] both
    are canonicalised; for the ASCII letters this is upper-casing, and a code
    unit outside ASCII never canonicalises to an ASCII one. *)
Definition lit_matches (ic : bool) (c a : ascii) : bool :=
  if ic then bool_decide (toUpper c = toUpper a) else bool_decide (c = a).

Definition in_ranges (rs : list (ascii * ascii)) (a : ascii) : bool :=
  existsb (fun r => (code r.1 <=? code a) && (code a <=? code r.2)) rs.

Definition set_matches (ic : bool) (rs : list (ascii * ascii)) (a : ascii) : bool :=
  in_ranges rs a || (ic && (in_ranges rs (toUpper a) || in_ranges rs (toLower a))).

(** [.] matches every code unit under [s], and every one but a line
    terminator otherwise. *)
Definition dot_matches (da : bool) (a : ascii) : bool :=
  da || negb (bool_decide (code a = 10) || bool_decide (code a = 13)).

Definition bump (a : option ascii) (r : nat * string) : nat * string :=
  (S r.1, match a with Some c => String c r.2 | None => r.2 end).

(** [exec_here ic da p s] matches the pattern [p] at the beginning of [s], with
    the backtracking priorities of the language (a greedy repetition tries
    its longest run first, a lazy one its shortest).  The result is the length
    of the match and the text of the first capture group. *)
Fixpoint exec_here (ic da : bool) (p : list node) (s : string) {struct p}
    : option (nat * string) :=
  match p with
  | [] => Some (0, EmptyString)
  | Lit c :: p' =>
      match s with
      | String a s' =>
          if lit_matches ic c a then bump None <$> exec_here ic da p' s' else None
      | EmptyString => None
      end
  | StarSet rs :: p' =>
      (fix star (s : string) : option (nat * string) :=
         match s with
         | String a s' =>
             if set_matches ic rs a then
               match star s' with
               | Some r => Some (bump None r)
               | None => exec_here ic da p' s
               end
             else exec_here ic da p' s
         | EmptyString => exec_here ic da p' s
         end) s
  | LazyGroup :: p' =>
      (fix lazy (s : string) : option (nat * string) :=
         match exec_here ic da p' s with
         | Some r => Some (r.1, EmptyString)
         | None =>
             match s with
             | String a s' =>
                 if dot_matches da a then bump (Some a) <$> lazy s' else None
             | EmptyString => None
             end
         end) s
  end.

Definition exec (r : t) (s : string) : option (nat * string) :=
  exec_here (ignoreCase r) (dotAll r) (source r) s.

(** One match: where it starts, how long it is, its first capture group. *)
Record span := mkSpan { start : nat; len : nat; group1 : string }.

(** [scan r pos skip s]: all the matches in [s], the text from index [pos] on,
    found from left to right as [text.match(r)] and [text.matchAll(r)] do with
    the [g] flag: after a match the search resumes where the match ended, one
    code unit further when the match was empty.  [skip] counts the code units
    of the last match still to be stepped over. *)
Fixpoint scan (r : t) (pos skip : nat) (s : string) : list span :=
  match skip with
  | S k =>
      match s with
      | EmptyString => []
      | String _ s' => scan r (S pos) k s'
      end
  | O =>
      match exec r s with
      | Some m =>
          mkSpan pos m.1 m.2 ::
          match s with
          | EmptyString => []
          | String _ s' => scan r (S pos) (m.1 - 1) s'
          end
      | None =>
          match s with
          | EmptyString => []
          | String _ s' => scan r (S pos) 0 s'
          end
      end
  end.

Definition matchAll (r : t) (s : string) : list span := scan r 0 0 s.

(** [(text.match(r) || []).length] *)
Definition matchCount (r : t) (s : string) : nat := length (matchAll r s).

(** The first capture group of every match, in match order. *)
Definition captures (r : t) (s : string) : list string := group1 <$> matchAll r s.

(** [r.test(text)] from index 0: some position of the text matches. *)
Definition matches_at (r : t) (s : string) (i : nat) : Prop :=
  i ≤ String.length s ∧ is_Some (exec r (drop i s)).

(** Pattern source text to nodes, for the literal parts of a pattern. *)
Definition lits (s : string) : list node := Lit <$> String.list_ascii_of_string s.

End RegExp.

Import RegExp.

(** ** Data model *)

(** One entry of a catcher's [detail] array: [{ name, regex }]. *)
Module DetailExtractor.
Record t := mk { name : string; regex : RegExp.t }.
End DetailExtractor.

(** A catcher: [{ type, subType, regex, detail }]. *)
Module Catcher.
Record t := mk {
  type : string;
  subType : string;
  regex : RegExp.t;
  detail : list DetailExtractor.t;
}.
End Catcher.

(** What [catchMatches] returns for a file and a catcher, as [run] reads it:
    [item.type], [item.subType], [item.fileName], [item.matches] and
    [item.detail].  [detail] is an object used as an ordered map from the
    extractor names to the captured texts: [Object.keys] enumerates it in
    insertion order (the names are not array indices). *)
Module MatchRecord.
Record t := mk {
  type : string;
  subType : string;
  fileName : string;
  matches : nat;
  detail : list (string * list string);
}.
End MatchRecord.

(** The object literal built by the [map] callback of [run]. *)
Module ReportRow.
Record t := mk {
  type : string;
  subType : string;
  fileName : string;
  nameSpace : string;
  matches : nat;
  detail : string;
}.
End ReportRow.

(** ** The catchers of the command *)

Definition nameChars : list (ascii * ascii) :=
  [("A", "Z"); ("a", "z"); ("0", "9"); ("_", "_"); ("-", "-")]%char.

Definition catchers : list Catcher.t := [
  Catcher.mk "INBOUND" "SOAP"
    (RegExp.mk (lits "webservice static") true false)
    [ DetailExtractor.mk "webServiceName"
        (RegExp.mk (lits "webservice static " ++ [LazyGroup; Lit "{"]) true true) ];
  Catcher.mk "INBOUND" "REST"
    (RegExp.mk (lits "@RestResource") true false)
    [ DetailExtractor.mk "restResource"
        (RegExp.mk (lits "@RestResource(" ++ [LazyGroup; Lit ")"]) true true) ];
  Catcher.mk "OUTBOUND" "HTTP"
    (RegExp.mk (lits "new HttpRequest") true false)
    [ DetailExtractor.mk "endPoint"
        (RegExp.mk (lits "setEndpoint(" ++ [LazyGroup; Lit ";"]) true true);
      DetailExtractor.mk "action"
        (RegExp.mk (lits "<soapenv:Body><"
                      ++ [StarSet nameChars; Lit ":"; LazyGroup; Lit ">"]) true true) ]
]%char.

(** ** Matcher *)

(** [obj[key] = value] on an ordered map: a new key goes last, a key already
    there keeps its place. *)
Fixpoint setKey {V : Type} (key : string) (value : V) (o : list (string * V))
    : list (string * V) :=
  match o with
  | [] => [(key, value)]
  | kv :: o' =>
      if bool_decide (kv.1 = key) then (key, value) :: o'
      else kv :: setKey key value o'
  end.

(** The loop over a catcher's extractors, filling [detailCaptures]. *)
Fixpoint collectDetails (ds : list DetailExtractor.t) (fileText : string)
    (acc : list (string * list string)) : list (string * list string) :=
  match ds with
  | [] => acc
  | d :: ds' =>
      collectDetails ds' fileText
        (setKey (DetailExtractor.name d)
                (captures (DetailExtractor.regex d) fileText) acc)
  end.

(** Modelled from the spec: [catchMatches] is imported from
    [common/utils/index.js], which is not among the sources.  The spec's
    Matcher (4.2): count the matches [n] of the primary pattern in the file
    text; emit nothing when [n] is 0; otherwise evaluate every detail
    extractor on the same full text, collect the first capture group of each
    of its matches in order, and emit exactly one record with [matchCount = n]
    and [detailCaptures] populated per extractor (an empty list when the
    extractor found nothing).  [fileName] is the path of the file. *)
Definition catchMatches (catcher : Catcher.t) (file fileText : string)
    : list MatchRecord.t :=
  let n := matchCount (Catcher.regex catcher) fileText in
  match n with
  | O => []
  | S _ =>
      [ MatchRecord.mk (Catcher.type catcher) (Catcher.subType catcher) file n
          (collectDetails (Catcher.detail catcher) fileText []) ]
  end.

(** ** Scanner: the body of the loop over the files *)

(** The content pre-filter of [run]. *)
Definition skipped (fileText : string) : bool :=
  startsWith fileText "hidden" || includes fileText "@isTest".

(** What one file adds to [this.matchResults]; [catch] is the matcher. *)
Definition fileMatches (catch : Catcher.t → string → string → list MatchRecord.t)
    (cs : list Catcher.t) (file fileText : string) : list MatchRecord.t :=
  if skipped fileText then []
  else flat_map (fun catcher => catch catcher file fileText) cs.

(** ** Aggregator: from match records to report rows *)

Definition CR : ascii := ascii_of_nat 13.
Definition LF : ascii := ascii_of_nat 10.

(** [text.replace(/(\r\n|\n|\r)/gm, '')]: at each position the alternatives
    are tried in order; [skip] is the rest of a two-unit match. *)
Fixpoint removeNewLines_go (skip : nat) (s : string) : string :=
  match s with
  | EmptyString => EmptyString
  | String a s' =>
      match skip with
      | S k => removeNewLines_go k s'
      | O =>
          if String.prefix (String CR (String LF EmptyString)) s
          then removeNewLines_go 1 s'
          else if bool_decide (a = LF) then removeNewLines_go 0 s'
          else if bool_decide (a = CR) then removeNewLines_go 0 s'
          else String a (removeNewLines_go 0 s')
      end
  end.

Definition removeNewLines (s : string) : string := removeNewLines_go 0 s.

(** The class [\s] on 8-bit code units: tab, line feed, vertical tab, form
    feed, carriage return, space and no-break space. *)
Definition isWhiteSpace (a : ascii) : bool :=
  let n := nat_of_ascii a in
  ((9 <=? n) && (n <=? 13)) || (n =? 32) || (n =? 160).

(** [text.replace(/\s+/g, ' ')]: every maximal run of white space becomes one
    space; [inRun] tells that the previous code unit was white space. *)
Fixpoint collapseWhiteSpace_go (inRun : bool) (s : string) : string :=
  match s with
  | EmptyString => EmptyString
  | String a s' =>
      if isWhiteSpace a
      then if inRun then collapseWhiteSpace_go true s'
           else String " " (collapseWhiteSpace_go true s')
      else String a (collapseWhiteSpace_go false s')
  end.

Definition collapseWhiteSpace (s : string) : string := collapseWhiteSpace_go false s.

(** The callback applied to each captured text. *)
Definition cleanExtractedText (extractedText : string) : string :=
  collapseWhiteSpace (removeNewLines extractedText).

(** [x || ''] on a string: the empty string is the only falsy one. *)
Definition orEmpty (x : string) : string :=
  if bool_decide (x = EmptyString) then EmptyString else x.

(** The [detail] property of a row. *)
Definition detailText (detail : list (string * list string)) : string :=
  orEmpty
    (join " || "
       ((fun kv => kv.1 +:+ ": " +:+ join " | " (cleanExtractedText <$> kv.2))
          <$> detail)).

(** The [nameSpace] property of a row. *)
Definition nameSpaceOf (fileName : string) : string :=
  if includes fileName "__" then split fileName "__" !!! 0 else "Custom".

(** The callback of [this.matchResults.map]. *)
Definition toRow (item : MatchRecord.t) : ReportRow.t :=
  ReportRow.mk
    (MatchRecord.type item)
    (MatchRecord.subType item)
    (MatchRecord.fileName item)
    (nameSpaceOf (MatchRecord.fileName item))
    (MatchRecord.matches item)
    (detailText (MatchRecord.detail item)).

(** ** Objects, arrays and the heap *)

Inductive val :=
  | VStr (s : string)
  | VNum (n : Z).

Global Instance val_eq_dec : EqDecision val.
Proof. solve_decision. Defined.

(** A row as the program holds it: an object, whose properties can be removed. *)
Abbreviation obj := (gmap string val).

Definition rowObject (r : ReportRow.t) : obj :=
  {[ "type" := VStr (ReportRow.type r);
     "subType" := VStr (ReportRow.subType r);
     "fileName" := VStr (ReportRow.fileName r);
     "nameSpace" := VStr (ReportRow.nameSpace r);
     "matches" := VNum (Z.of_nat (ReportRow.matches r));
     "detail" := VStr (ReportRow.detail r) ]}.

Abbreviation loc := nat (only parsing).

Inductive cell :=
  | CObj (o : obj)
  | CArr (elems : list loc).

(** A column of the report: [{ key, header }]. *)
Record column := mkColumn { key : string; header : string }.

(** What the command shows or hands over, in order. *)
Inductive event :=
  | Log (msg : string)
  | Table (rows : list obj)
  | Report (rows : list obj) (columns : list column).

Record world := mkWorld {
  heap : gmap loc cell;
  console : list event;
}.

Inductive error :=
  | IOError (file : string)
  | ExportError (reason : string)
  | TypeError.

(** How an awaited call settles. *)
Inductive outcome (A : Type) :=
  | Resolved (a : A)
  | Rejected (e : error).
Global Arguments Resolved {A} a.
Global Arguments Rejected {A} e.

(** Computations of the command: they read and change the world, and either
    produce a value or reject; nothing in [run] catches a rejection. *)
Definition M (A : Type) : Type := world → world * outcome A.

Definition ret {A} (a : A) : M A := fun w => (w, Resolved a).

Definition throw {A} (e : error) : M A := fun w => (w, Rejected e).

Definition bind {A B} (m : M A) (k : A → M B) : M B :=
  fun w =>
    match m w with
    | (w', Resolved a) => k a w'
    | (w', Rejected e) => (w', Rejected e)
    end.

Notation "'let!' x ':=' m 'in' k" := (bind m (fun x => k))
  (at level 10, x pattern, m at level 100, k at level 200).
Notation "m ';;' k" := (bind m (fun _ => k))
  (at level 100, k at level 200, right associativity).

Definition settle {A} (o : outcome A) : M A := fun w => (w, o).

Fixpoint mapM {A B} (f : A → M B) (l : list A) : M (list B) :=
  match l with
  | [] => ret []
  | x :: l' => let! y := f x in let! ys := mapM f l' in ret (y :: ys)
  end.

Definition alloc (c : cell) : M loc :=
  fun w =>
    let l := fresh (dom (heap w)) in
    (mkWorld (<[l := c]> (heap w)) (console w), Resolved l).

Definition store (l : loc) (c : cell) : M unit :=
  fun w => (mkWorld (<[l := c]> (heap w)) (console w), Resolved tt).

Definition getArray (a : loc) : M (list loc) :=
  fun w =>
    match heap w !! a with
    | Some (CArr ls) => (w, Resolved ls)
    | _ => (w, Rejected TypeError)
    end.

Definition getObject (l : loc) : M obj :=
  fun w =>
    match heap w !! l with
    | Some (CObj o) => (w, Resolved o)
    | _ => (w, Rejected TypeError)
    end.

(** The objects an array refers to. *)
Definition getRows (a : loc) : M (list obj) :=
  let! ls := getArray a in mapM getObject ls.

(** A new array of new objects. *)
Definition newArray (os : list obj) : M loc :=
  let! ls := mapM (fun o => alloc (CObj o)) os in alloc (CArr ls).

Definition emit (e : event) : M unit :=
  fun w => (mkWorld (heap w) (console w ++ [e]), Resolved tt).

(** ** Sorter: [sortArray] of the sort-array package

    [sortArray(arr, { by, order })] calls [arr.sort] with the comparator
    below and returns [arr]: the array is sorted in place.  [arr.sort] is
    stable; for a comparator that is a total preorder its result is the one
    computed by the stable insertion [sortWith]. *)

Inductive direction := asc | desc.

(** [x < y] on property values.  Two strings compare by code units, two
    numbers numerically.  The other cases (an absent property, a string
    against a number) do not arise on the rows of the command and are left
    as not less. *)
Definition lessThan (x y : option val) : bool :=
  match x, y with
  | Some (VStr a), Some (VStr b) => String.ltb a b
  | Some (VNum a), Some (VNum b) => (a <? b)%Z
  | _, _ => false
  end.

Definition compareValues (currOrder : direction) (x y : option val) : Z :=
  if bool_decide (x = y) then 0%Z
  else
    let result := if lessThan x y then (-1)%Z else if lessThan y x then 1%Z else 0%Z in
    match currOrder with
    | asc => result
    | desc => (result * -1)%Z
    end.

(** [compareFunc(xIn, yIn, byIndex)]: the key at [byIndex] decides unless it
    ties and another key follows. *)
Fixpoint compareFunc (by_ : list string) (order : list direction) (xIn yIn : obj) : Z :=
  match by_ with
  | [] => 0%Z
  | k :: by' =>
      let currOrder := default asc (head order) in
      let result := compareValues currOrder (xIn !! k) (yIn !! k) in
      if (result =? 0)%Z then compareFunc by' (tail order) xIn yIn else result
  end.

Section SortWith.
Context {A : Type} (cmp : A → A → Z).

Fixpoint insertWith (x : A) (l : list A) : list A :=
  match l with
  | [] => [x]
  | y :: l' => if (cmp x y <=? 0)%Z then x :: l else y :: insertWith x l'
  end.

Fixpoint sortWith (l : list A) : list A :=
  match l with
  | [] => []
  | x :: l' => insertWith x (sortWith l')
  end.
End SortWith.

Definition sortArray (arr : loc) (by_ : list string) (order : list direction) : M loc :=
  let! ls := getArray arr in
  let! os := mapM getObject ls in
  let sorted := sortWith (fun p q => compareFunc by_ order p.2 q.2) (zip ls os) in
  store arr (CArr (sorted.*1));;
  ret arr.

(** ** Reporter *)

(** [JSON.parse(JSON.stringify(arr))]: an array of rows, whose properties are
    strings and integers, comes back as a new array of new objects with the
    same properties. *)
Definition jsonClone (arr : loc) : M loc :=
  let! os := getRows arr in newArray os.

(** [arr.map(item => { delete item.detail; return item })] *)
Definition mapDeleteDetail (arr : loc) : M loc :=
  let! ls := getArray arr in
  let! ls' := mapM (fun l => let! o := getObject l in
                             store l (CObj (delete "detail" o));;
                             ret l) ls in
  alloc (CArr ls').

Definition consoleTable (arr : loc) : M unit :=
  let! os := getRows arr in emit (Table os).

(** The display of the table in [run]. *)
Definition displayTable (resultSorted : loc) : M unit :=
  let! resultsLight := jsonClone resultSorted in
  let! light := mapDeleteDetail resultsLight in
  consoleTable light.

Definition columns : list column := [
  mkColumn "type" "IN/OUT";
  mkColumn "subType" "Protocol";
  mkColumn "fileName" "Apex";
  mkColumn "nameSpace" "Namespace";
  mkColumn "matches" "Number";
  mkColumn "detail" "Detail"
].

Definition sortKeys : list string := ["type"; "subType"; "fileName"; "matches"].
Definition sortOrder : list direction := [asc; asc; asc; desc].

Definition pattern : string := "**/*.{cls,trigger}".

(** The value returned by [run]; [result] refers to the sorted array. *)
Record payload := mkPayload {
  outputString : string;
  result : loc;
  reportFiles : list string;
}.

(** ** The command *)

Section Command.
(** The collaborators of the command: the file system ([glob] with the
    ignore list of [projectUtils], [fs.readFile]), the matcher and the
    report writer [generateReports] of [common/utils]. *)
Variable glob : string → list string → list string.
Variable GLOB_IGNORE_PATTERNS : list string.
Variable readFile : string → outcome string.
Variable catch : Catcher.t → string → string → list MatchRecord.t.
Variable generateReports : list obj → list column → outcome (list string).

(** The loop over the files; [matchResults] is [this.matchResults]. *)
Fixpoint scanFiles (cs : list Catcher.t) (files : list string)
    (matchResults : list MatchRecord.t) : M (list MatchRecord.t) :=
  match files with
  | [] => ret matchResults
  | file :: files' =>
      let! fileText := settle (readFile file) in
      scanFiles cs files' (matchResults ++ fileMatches catch cs file fileText)
  end.

Definition callGenerateReports (rows : loc) (cols : list column) : M (list string) :=
  let! os := getRows rows in
  emit (Report os cols);;
  settle (generateReports os cols).

(** [uxLog(this, msg)]: the logger of [common/utils]. *)
Definition uxLog (msg : string) : M unit := emit (Log msg).

Definition run : M payload :=
  let apexFiles := glob pattern GLOB_IGNORE_PATTERNS in
  uxLog ("Browsing " +:+ pretty (length apexFiles) +:+ " files");;
  let! matchResults := scanFiles catchers apexFiles [] in
  let! result := newArray (rowObject ∘ toRow <$> matchResults) in
  let! resultSorted := sortArray result sortKeys sortOrder in
  displayTable resultSorted;;
  let! reportFiles := callGenerateReports resultSorted columns in
  ret (mkPayload "Processed callIns and callOuts audit" resultSorted reportFiles).
End Command.

(** ** Reference notions used to state the properties *)

(** [sub] occurs in [s] at index [i]. *)
Definition occursAt (s sub : string) (i : nat) : Prop :=
  i ≤ String.length s ∧ String.prefix sub (drop i s) = true.

Definition firstOccurrence (s sub : string) (i : nat) : Prop :=
  occursAt s sub i ∧ ∀ j, j < i → ¬ occursAt s sub j.

(** The text without its line-feed and carriage-return code units. *)
Fixpoint stripLineBreaks (s : string) : string :=
  match s with
  | EmptyString => EmptyString
  | String a s' =>
      if bool_decide (a = CR ∨ a = LF) then stripLineBreaks s'
      else String a (stripLineBreaks s')
  end.

(** A text in which every white-space code unit is a space that does not
    follow another one ([afterSpace] is for the code unit before the text);
    in particular it holds no line break. *)
Fixpoint normalizedFrom (afterSpace : bool) (s : string) : Prop :=
  match s with
  | EmptyString => True
  | String a s' =>
      if isWhiteSpace a
      then a = " "%char ∧ afterSpace = false ∧ normalizedFrom true s'
      else normalizedFrom false s'
  end.

Definition normalized (s : string) : Prop := normalizedFrom false s.

(** One [name: value | value] group of a detail string. *)
Definition detailGroup (kv : string * list string) : string :=
  kv.1 +:+ ": " +:+ join " | " ((fun v => collapseWhiteSpace (stripLineBreaks v)) <$> kv.2).

(** [m] is a match of [r] in [s]: the pattern matches at [start m], over
    [len m] code units that lie within the text, with [group1 m] captured. *)
Definition isMatch (r : RegExp.t) (s : string) (m : span) : Prop :=
  start m + len m ≤ String.length s
  ∧ exec r (drop (start m) s) = Some (len m, group1 m).

(** Matches listed from left to right, none beginning before [lo] nor before
    the end of the one before it. *)
Fixpoint disjointFrom (lo : nat) (l : list span) : Prop :=
  match l with
  | [] => True
  | m :: l' => lo ≤ start m ∧ disjointFrom (Nat.max (start m + len m) (S (start m))) l'
  end.

Definition nonOverlapping (l : list span) : Prop := disjointFrom 0 l.

(** The primary pattern of a catcher matches somewhere in the text. *)
Definition primaryMatches (c : Catcher.t) (fileText : string) : Prop :=
  ∃ i, matches_at (Catcher.regex c) fileText i.

(** [r] is a record of the catcher [c] on [file]. *)
Definition recordFor (c : Catcher.t) (file : string) (r : MatchRecord.t) : Prop :=
  MatchRecord.type r = Catcher.type c
  ∧ MatchRecord.subType r = Catcher.subType c
  ∧ MatchRecord.fileName r = file.

Global Instance recordFor_dec c file r : Decision (recordFor c file r).
Proof. unfold recordFor. apply _. Defined.

Definition catcherKey (c : Catcher.t) : string * string :=
  (Catcher.type c, Catcher.subType c).

(** The character that ends the capture group of a pattern whose last two
    nodes are the group and a literal. *)
Definition terminator (r : RegExp.t) : option ascii :=
  match reverse (source r) with
  | Lit t :: LazyGroup :: _ => Some t
  | _ => None
  end.

(** The text with its letters [a] to [z] in upper case. *)
Fixpoint upperCase (s : string) : string :=
  match s with
  | EmptyString => EmptyString
  | String a s' => String (toUpper a) (upperCase s')
  end.

(** The text of a file that was read. *)
Definition textOf (readFile : string → outcome string) (file : string) : string :=
  match readFile file with
  | Resolved fileText => fileText
  | Rejected _ => EmptyString
  end.

Definition readable (readFile : string → outcome string) (file : string) : Prop :=
  ∃ fileText, readFile file = Resolved fileText.

(** The captures of an extractor, as an entry of [detailCaptures]. *)
Definition detailEntry (fileText : string) (d : DetailExtractor.t) : string * list string :=
  (DetailExtractor.name d, captures (DetailExtractor.regex d) fileText).

(** The order of strings by code units: [a < b] in the language. *)
Definition strLt (a b : string) : Prop := String.compare a b = Lt.

(** [x] may come before [y] in the report: by [type], then by [subType],
    then by [fileName], all ascending, then by [matches], descending. *)
Definition rowLe (x y : ReportRow.t) : Prop :=
  strLt (ReportRow.type x) (ReportRow.type y)
  ∨ (ReportRow.type x = ReportRow.type y
     ∧ (strLt (ReportRow.subType x) (ReportRow.subType y)
        ∨ (ReportRow.subType x = ReportRow.subType y
           ∧ (strLt (ReportRow.fileName x) (ReportRow.fileName y)
              ∨ (ReportRow.fileName x = ReportRow.fileName y
                 ∧ ReportRow.matches y ≤ ReportRow.matches x))))).

(** [x] and [y] are equal on the four keys of the sort. *)
Definition sameKeys (x y : ReportRow.t) : Prop :=
  ReportRow.type x = ReportRow.type y
  ∧ ReportRow.subType x = ReportRow.subType y
  ∧ ReportRow.fileName x = ReportRow.fileName y
  ∧ ReportRow.matches x = ReportRow.matches y.

Global Instance sameKeys_dec x y : Decision (sameKeys x y).
Proof. unfold sameKeys. apply _. Defined.

(** The comparator of the command on rows, and the rows sorted with it. *)
Definition compareRows (x y : ReportRow.t) : Z :=
  compareFunc sortKeys sortOrder (rowObject x) (rowObject y).

Definition sortRows (rows : list ReportRow.t) : list ReportRow.t :=
  sortWith compareRows rows.

Definition signOf (c : comparison) : Z :=
  match c with
  | Eq => 0
  | Lt => -1
  | Gt => 1
  end%Z.

(** Order by the string [f x] first, then by [le2]. *)
Definition lexLe {A} (f : A → string) (le2 : A → A → Prop) (x y : A) : Prop :=
  strLt (f x) (f y) ∨ (f x = f y ∧ le2 x y).

(** The references [ls] lead to the objects [os], in order. *)
Definition rowsAt (h : gmap loc cell) (ls : list loc) (os : list obj) : Prop :=
  Forall2 (λ l o, h !! l = Some (CObj o)) ls os.

(** [a] is an array of the objects [os]. *)
Definition arrayOf (h : gmap loc cell) (a : loc) (os : list obj) : Prop :=
  ∃ ls, h !! a = Some (CArr ls) ∧ rowsAt h ls os.

(** Every cell of [h] is in [h'], with the same content. *)
Definition preserved (h h' : gmap loc cell) : Prop :=
  ∀ l c, h !! l = Some c → h' !! l = Some c.

(** The match results of a scan in which every file is read. *)
Definition scanned (readFile : string → outcome string)
    (catch : Catcher.t → string → string → list MatchRecord.t)
    (cs : list Catcher.t) (files : list string) : list MatchRecord.t :=
  flat_map (λ f, fileMatches catch cs f (textOf readFile f)) files.

(** The sorted rows of the report, as objects. *)
Definition reportObjects (readFile : string → outcome string)
    (catch : Catcher.t → string → string → list MatchRecord.t)
    (files : list string) : list obj :=
  rowObject <$> sortRows (toRow <$> scanned readFile catch catchers files).

Definition browsing (files : list string) : string :=
  "Browsing " +:+ pretty (length files) +:+ " files".

Definition summary : string := "Processed callIns and callOuts audit".

(** ** Sample inputs *)

Definition sampleRecord (file : string) : MatchRecord.t :=
  MatchRecord.mk "OUTBOUND" "HTTP" file 2
    [("endPoint", ["'https://a'
        + path)"; "url) "]); ("action", [])].

Definition sampleFiles (file : string) : outcome string :=
  if bool_decide (file = "classes/Svc.cls") then
    Resolved "global class Svc { webservice static void ping() { } }"
  else if bool_decide (file = "classes/SvcTest.cls") then
    Resolved "@isTest class SvcTest { webservice static void ping() { } }"
  else if bool_decide (file = "classes/Old.cls") then
    Resolved "hidden webservice static void gone() { }"
  else Rejected (IOError file).

Definition soapCatcher : Catcher.t :=
  Catcher.mk "INBOUND" "SOAP"
    (RegExp.mk (lits "webservice static") true false)
    [ DetailExtractor.mk "webServiceName"
        (RegExp.mk (lits "webservice static " ++ [LazyGroup; Lit "{"%char]) true true) ].

Definition sampleResults : list MatchRecord.t :=
  [ MatchRecord.mk "INBOUND" "SOAP" "classes/Svc.cls" 1
      [("webServiceName", ["void ping() "])] ].

Definition globOf (files : list string) : string → list string → list string :=
  λ _ _, files.

Definition writerOk : list obj → list column → outcome (list string) :=
  λ _ _, Resolved ["hardis-report/callincallout.csv"; "hardis-report/callincallout.xls"].

Definition writerFails : list obj → list column → outcome (list string) :=
  λ _ _, Rejected (ExportError "EACCES").

Definition emptyWorld : world := mkWorld ∅ [].

Definition plainFiles (file : string) : outcome string :=
  Resolved "public class Plain { Integer n; }".

Definition rowA : ReportRow.t :=
  ReportRow.mk "INBOUND" "SOAP" "A.cls" "Custom" 3 "webServiceName: void a() ".

Definition rowB : ReportRow.t :=
  ReportRow.mk "INBOUND" "SOAP" "B.cls" "Custom" 1 "webServiceName: void b() ".

(** A row with the four keys of [rowB] and another detail. *)
Definition rowB' : ReportRow.t :=
  ReportRow.mk "INBOUND" "SOAP" "B.cls" "Custom" 1 "webServiceName: void c() ".

(** An array holding [rowB], [rowA] and [rowB']. *)
Definition threeRowsWorld : world :=
  mkWorld {[ 0 := CObj (rowObject rowB); 1 := CObj (rowObject rowA);
             2 := CObj (rowObject rowB'); 3 := CArr [0; 1; 2] ]} [].

(** A record of a catcher whose extractor captured nothing. *)
Definition emptyCapturesRecord : MatchRecord.t :=
  MatchRecord.mk "INBOUND" "SOAP" "A.cls" 1 [("webServiceName", [])].

(** An array holding [rowB] then [rowA]. *)
Definition unsortedWorld : world :=
  mkWorld {[ 0 := CObj (rowObject rowB); 1 := CObj (rowObject rowA); 2 := CArr [0; 1] ]} [].

(** * The command [hardis:org:diagnose:unusedusers]

    [DiagnoseUnusedUsers] queries the active users who did not log in during
    the last days, writes them to a report, posts a notification and returns
    a status.  Its instance fields and the exit code of the process are the
    state of the computation; the functions it imports ([prompts],
    [bulkQuery], [generateReportPath], [generateCsvFile], [getOrgMarkdown],
    [getNotificationButtons]) are its surroundings, and every
    call that leaves the command is recorded in the trace. *)

Module DiagnoseUnusedUsers.

(** The truth value of an optional string and of an optional number: absent,
    the empty string and zero are falsy. *)
Definition truthyString (s : option string) : bool :=
  match s with
  | Some (String _ _) => true
  | _ => false
  end.

Definition truthyNumber (n : option Z) : bool :=
  match n with
  | Some n => negb (n =? 0)%Z
  | None => false
  end.

(** [s || null] *)
Definition orNull (s : option string) : option string :=
  if truthyString s then s else None.

(** An optional number inside a template literal; the numbers of the command
    are numbers of days, integers printed in decimal. *)
Definition showNumber (n : option Z) : string :=
  match n with
  | Some n => pretty n
  | None => "undefined"
  end.

(** The flags that [run] reads. *)
Record flags := mkFlags {
  outputfile : option string;
  days : option Z;
  debug : bool;
}.

Record choice := mkChoice { title : string; value : Z }.

Record question := mkQuestion {
  type : string;
  name : string;
  message : string;
  choices : list choice;
}.

(** The question asked when the number of days is missing. *)
Definition daysQuestion : question :=
  mkQuestion "select" "days"
    "Please select the period to detect inactive active users."
    [ mkChoice "7 days" 7;
      mkChoice "30 days" 30;
      mkChoice "90 days" 90;
      mkChoice "6 months (180 days)" 180;
      mkChoice "1 year (365 days)" 365;
      mkChoice "2 years (730 days)" 730 ].

(** What [generateCsvFile] returns, as the command reads it. *)
Record filesRes := mkFilesRes { xlsxFile : option string }.

(** The query sent to the org. *)
Definition whereConstraint (lastNdays : option Z) : string :=
  "WHERE IsActive = true AND LastLoginDate != LAST_N_DAYS:" +:+ showNumber lastNdays
  +:+ " AND LastLoginDate != NULL AND Profile.UserLicense.LicenseDefinitionKey = 'SFDC' ".

Definition unusedUsersQuery (lastNdays : option Z) : string :=
  "SELECT Id, Username, LastLoginDate, IsActive, Profile.UserLicense.LicenseDefinitionKey "
  +:+ "FROM User "
  +:+ whereConstraint lastNdays
  +:+ "ORDER BY LastLoginDate DESC".

Definition newLine : string := String LF EmptyString.

Section Command.
(** The records of the query and the buttons of a notification are opaque
  to the command; [userText] is the conversion of a record to a string in
  a template literal. *)
Variables user buttons : Type.
Variable userText : user → string.

(** The argument of [NotifProvider.postNotifications]. *)
Record notification := mkNotification {
notifType : string;
text : string;
attachments : list string;
notifButtons : buttons;
severity : string;
attachedFiles : list string;
}.

(** The calls that leave the command, in order. *)
Inductive event :=
| Log (msg : string)
| Prompt (q : question)
| Query (soql : string)
| ReportPath (fileNamePrefix : string) (outputFile : option string)
| CsvFile (rows : list user) (outputFile : string)
| Notification (n : notification).

(** The fields of the instance, the exit code of the process and the trace. *)
Record state := mkState {
debugMode : bool;
outputFile : option string;
outputFilesRes : filesRes;
lastNdays : option Z;
unusedUsers : list user;
statusCode : Z;
exitCode : option Z;
trace : list event;
}.

(** A new instance, in a process with the given exit code and trace. *)
Definition newInstance (exitCode : option Z) (trace : list event) : state :=
mkState false None (mkFilesRes None) None [] 0 exitCode trace.

Definition M (A : Type) : Type := state → state * outcome A.

Definition ret {A} (a : A) : M A := fun s => (s, Resolved a).

Definition bind {A B} (m : M A) (k : A → M B) : M B :=
fun s =>
  match m s with
  | (s', Resolved a) => k a s'
  | (s', Rejected e) => (s', Rejected e)
  end.

Notation "'let*' x ':=' m 'in' k" := (bind m (fun x => k))
(at level 10, x pattern, m at level 100, k at level 200).
Notation "m '>>' k" := (bind m (fun _ => k))
(at level 100, k at level 200, right associativity).

Definition get : M state := fun s => (s, Resolved s).

Definition modify (f : state → state) : M unit := fun s => (f s, Resolved tt).

Definition emit (e : event) : M unit :=
modify (fun s =>
  mkState (debugMode s) (outputFile s) (outputFilesRes s) (lastNdays s)
          (unusedUsers s) (statusCode s) (exitCode s) (trace s ++ [e])).

(** An awaited call of an imported function: the call is recorded, and its
  outcome is the outcome of the [await]. *)
Definition call {A} (e : event) (o : outcome A) : M A :=
emit e >> fun s => (s, o).

Definition set_debugMode (v : bool) (s : state) : state :=
mkState v (outputFile s) (outputFilesRes s) (lastNdays s)
        (unusedUsers s) (statusCode s) (exitCode s) (trace s).

Definition set_outputFile (v : option string) (s : state) : state :=
mkState (debugMode s) v (outputFilesRes s) (lastNdays s)
        (unusedUsers s) (statusCode s) (exitCode s) (trace s).

Definition set_outputFilesRes (v : filesRes) (s : state) : state :=
mkState (debugMode s) (outputFile s) v (lastNdays s)
        (unusedUsers s) (statusCode s) (exitCode s) (trace s).

Definition set_lastNdays (v : option Z) (s : state) : state :=
mkState (debugMode s) (outputFile s) (outputFilesRes s) v
        (unusedUsers s) (statusCode s) (exitCode s) (trace s).

Definition set_unusedUsers (v : list user) (s : state) : state :=
mkState (debugMode s) (outputFile s) (outputFilesRes s) (lastNdays s)
        v (statusCode s) (exitCode s) (trace s).

Definition set_statusCode (v : Z) (s : state) : state :=
mkState (debugMode s) (outputFile s) (outputFilesRes s) (lastNdays s)
        (unusedUsers s) v (exitCode s) (trace s).

Definition set_exitCode (v : option Z) (s : state) : state :=
mkState (debugMode s) (outputFile s) (outputFilesRes s) (lastNdays s)
        (unusedUsers s) (statusCode s) v (trace s).

(** The value returned by [run]. *)
Record payload := mkPayload {
status : Z;
resultMessage : string;
summary : string;
resultUsers : list user;
csvLogFile : option string;
xlsxLogFile : option string;
}.

(** The surroundings of the command: whether it runs in continuous
  integration, the org it is connected to, its arguments and flags, the
  colours of [chalk] and the imported functions. *)
Record env := mkEnv {
isCI : bool;
instanceUrl : string;
argv : option (list string);
theFlags : flags;
cyan : string → string;
grey : string → string;
italic : string → string;
prompts : question → outcome (option Z);
bulkQuery : string → outcome (list user);
generateReportPath : string → option string → outcome string;
generateCsvFile : list user → string → outcome filesRes;
getOrgMarkdown : string → outcome string;
getNotificationButtons : outcome buttons;
}.

Variable E : env.

Definition uxLog (msg : string) : M unit := emit (Log msg).

(** [bulkQuery(query, conn)] settles with a result whose [records] are the
  users. *)
Definition listUnusedUsersWithSfdcLicense : M (list user) :=
let* this := get in
let query := unusedUsersQuery (lastNdays this) in
uxLog (grey E ("Query: " +:+ italic E query)) >>
call (Query query) (bulkQuery E query).

(** The loop that builds the detail of the notification. *)
Definition notifDetailText (users : list user) : string :=
fold_left (fun text user => text +:+ "• " +:+ userText user +:+ newLine)
          users ("*Related users*:" +:+ newLine).

(** [postNotifications] is not awaited: the notification is posted and its
  outcome does not reach the command.  The value returned, an empty array,
  is not used by [run]. *)
Definition manageNotifications : M unit :=
let* this := get in
if 0 <? length (unusedUsers this) then
  let* orgMarkdown := fun s => (s, getOrgMarkdown E (instanceUrl E)) in
  let* notifButtons := fun s => (s, getNotificationButtons E) in
  emit (Notification
          (mkNotification
             "UNUSED_USERS"
             (pretty (length (unusedUsers this))
              +:+ " active users have not logged in to " +:+ orgMarkdown
              +:+ " within the last " +:+ showNumber (lastNdays this) +:+ " days.")
             [notifDetailText (unusedUsers this)]
             notifButtons
             "warning"
             (if truthyString (xlsxFile (outputFilesRes this))
              then option_list (xlsxFile (outputFilesRes this)) else [])))
else ret tt.

Definition run : M payload :=
modify (set_debugMode (debug (theFlags E))) >>
modify (set_outputFile (orNull (outputfile (theFlags E)))) >>
modify (set_lastNdays (days (theFlags E))) >>
modify (set_debugMode (debug (theFlags E))) >>
modify (set_outputFile (orNull (outputfile (theFlags E)))) >>
let* this := get in
(if negb (isCI E) && negb (truthyNumber (lastNdays this)) then
   let* lastNdaysResponse := call (Prompt daysQuestion) (prompts E daysQuestion) in
   modify (set_lastNdays lastNdaysResponse)
 else ret tt) >>
uxLog (cyan E ("Extracting active users who haven't logged in for a while on "
             +:+ instanceUrl E +:+ " ...")) >>
let* users := listUnusedUsersWithSfdcLicense in
modify (set_unusedUsers users) >>
let* this := get in
(if 0 <? length (unusedUsers this) then
   let* path := call (ReportPath "unused-users" (outputFile this))
                     (generateReportPath E "unused-users" (outputFile this)) in
   modify (set_outputFile (Some path)) >>
   let* res := call (CsvFile (unusedUsers this) path)
                    (generateCsvFile E (unusedUsers this) path) in
   modify (set_outputFilesRes res)
 else ret tt) >>
manageNotifications >>
let* this := get in
let userSummaryInfo :=
  if length (unusedUsers this) =? 1 then "user has" else "users have" in
let* texts :=
  (if length (unusedUsers this) =? 0 then
     ret ("No unused users have been found",
          "All users have logged in to " +:+ instanceUrl E +:+ " within the last "
          +:+ showNumber (lastNdays this) +:+ " days!")
   else
     modify (set_statusCode 1) >>
     ret (pretty (length (unusedUsers this)) +:+ " unused " +:+ userSummaryInfo
          +:+ " been found",
          pretty (length (unusedUsers this)) +:+ " active " +:+ userSummaryInfo
          +:+ " not logged in to " +:+ instanceUrl E +:+ " in the last "
          +:+ showNumber (lastNdays this) +:+ " days!")) in
let* this := get in
(if bool_decide ("unusedusers" ∈ default [] (argv E)) then
   modify (set_exitCode (Some (statusCode this)))
 else ret tt) >>
let* this := get in
ret (mkPayload (statusCode this) texts.1 texts.2 (unusedUsers this)
               (outputFile this) (xlsxFile (outputFilesRes this))).

End Command.

Global Arguments Log {user buttons} msg.
Global Arguments Prompt {user buttons} q.
Global Arguments Query {user buttons} soql.
Global Arguments ReportPath {user buttons} fileNamePrefix outputFile.
Global Arguments CsvFile {user buttons} rows outputFile.
Global Arguments Notification {user buttons} n.
Global Arguments mkNotification {buttons}.
Global Arguments mkPayload {user}.
Global Arguments mkState {user buttons}.
Global Arguments mkEnv {user buttons}.
Global Arguments isCI {user buttons} e.
Global Arguments instanceUrl {user buttons} e.
Global Arguments argv {user buttons} e.
Global Arguments theFlags {user buttons} e.
Global Arguments cyan {user buttons} e.
Global Arguments grey {user buttons} e.
Global Arguments italic {user buttons} e.
Global Arguments prompts {user buttons} e.
Global Arguments bulkQuery {user buttons} e.
Global Arguments generateReportPath {user buttons} e.
Global Arguments generateCsvFile {user buttons} e.
Global Arguments getOrgMarkdown {user buttons} e.
Global Arguments getNotificationButtons {user buttons} e.
Global Arguments debugMode {user buttons} s.
Global Arguments outputFile {user buttons} s.
Global Arguments outputFilesRes {user buttons} s.
Global Arguments lastNdays {user buttons} s.
Global Arguments unusedUsers {user buttons} s.
Global Arguments statusCode {user buttons} s.
Global Arguments exitCode {user buttons} s.
Global Arguments trace {user buttons} s.
Global Arguments status {user} p.
Global Arguments resultMessage {user} p.
Global Arguments summary {user} p.
Global Arguments resultUsers {user} p.
Global Arguments csvLogFile {user} p.
Global Arguments xlsxLogFile {user} p.
Global Arguments notifType {buttons} n.
Global Arguments text {buttons} n.
Global Arguments attachments {buttons} n.
Global Arguments notifButtons {buttons} n.
Global Arguments severity {buttons} n.
Global Arguments attachedFiles {buttons} n.
Global Arguments newInstance {user buttons} exitCode trace.
Global Arguments notifDetailText {user} userText users.
Global Arguments listUnusedUsersWithSfdcLicense {user buttons} E.
Global Arguments manageNotifications {user buttons} userText E.
Global Arguments run {user buttons} userText E.

(** The number of days the query is made with: the flag, or the answer to
    the question when the command is run by hand without a number of days. *)
Definition daysInEffect {user buttons} (E : env user buttons) : outcome (option Z) :=
  if negb (isCI E) && negb (truthyNumber (days (theFlags E)))
  then prompts E daysQuestion
  else Resolved (days (theFlags E)).

(** The events before the users are known: the question if it is asked, the
    two lines logged and the query. *)
Definition queryEvents {user buttons} (E : env user buttons) (d : option Z)
    : list (event user buttons) :=
  (if negb (isCI E) && negb (truthyNumber (days (theFlags E)))
   then [Prompt daysQuestion] else [])
  ++ [ Log (cyan E ("Extracting active users who haven't logged in for a while on "
                    +:+ instanceUrl E +:+ " ..."));
       Log (grey E ("Query: " +:+ italic E (unusedUsersQuery d)));
       Query (unusedUsersQuery d) ].

(** ** Sample surroundings *)

Definition sampleEnv (ci : bool) (args : list string) (d : option Z)
    (users : outcome (list string)) (csv : outcome filesRes) : env string unit :=
  mkEnv ci "https://org.my.salesforce.com" (Some args)
    (mkFlags None d false) id id id
    (λ _, Resolved (Some 30%Z))
    (λ _, users)
    (λ _ _, Resolved "hardis-report/unused-users.csv")
    (λ _ _, csv)
    (λ url, Resolved ("<" +:+ url +:+ ">"))
    (Resolved tt).

End DiagnoseUnusedUsers.

(** ** The name space of a row *)

Lemma take_0 s : take 0 s = EmptyString.
Proof. by destruct s. Qed.

Lemma take_S a s n : take (S n) (String a s) = String a (take n s).
Proof. reflexivity. Qed.

Lemma indexOf_Some s sub i :
  indexOf s sub = Some i → firstOccurrence s sub i.
Proof.
  revert i. induction s as [|a s IH]; intros i; simpl.
  - destruct (String.prefix sub EmptyString) eqn:E; [|done].
    intros [= <-]. split; [split; [simpl; lia | done] | intros; lia].
  - destruct (String.prefix sub (String a s)) eqn:E.
    + intros [= <-]. split; [split; [simpl; lia | done] | intros; lia].
    + destruct (indexOf s sub) as [k|] eqn:Ek; [|done].
      intros [= <-]. destruct (IH k eq_refl) as [[Hk Hp] Hmin].
      split; [split; [simpl; lia | done] |].
      intros [|j] Hj [Hl Hq]; simpl in Hq; [congruence |].
      apply (Hmin j); [lia |]. split; [simpl in Hl; lia | done].
Qed.

Lemma indexOf_None s sub i : indexOf s sub = None → ¬ occursAt s sub i.
Proof.
  revert i. induction s as [|a s IH]; intros i; simpl.
  - destruct (String.prefix sub EmptyString) eqn:E; [done|].
    intros _ [Hl Hp]. destruct i; simpl in *; congruence.
  - destruct (String.prefix sub (String a s)) eqn:E; [done|].
    destruct (indexOf s sub) eqn:Ek; [done|]. intros _ [Hl Hp].
    destruct i as [|i]; simpl in *; [congruence|].
    apply (IH i eq_refl). split; [lia | done].
Qed.

Lemma includes_indexOf s sub : includes s sub = bool_decide (is_Some (indexOf s sub)).
Proof.
  induction s as [|a s IH]; cbn [includes indexOf].
  - destruct (String.prefix sub EmptyString); cbn [orb].
    + symmetry. apply bool_decide_eq_true_2. eauto.
    + symmetry. apply bool_decide_eq_false_2. by intros [? ?].
  - destruct (String.prefix sub (String a s)); cbn [orb].
    + symmetry. apply bool_decide_eq_true_2. eauto.
    + rewrite IH. destruct (indexOf s sub); cbn [fmap option_fmap option_map].
      * rewrite !bool_decide_eq_true_2; eauto.
      * rewrite !bool_decide_eq_false_2; [done | by intros [? ?] ..].
Qed.

Lemma split_go_head sep s :
  sep ≠ EmptyString →
  (split_go sep 0 s).1 = match indexOf s sep with Some i => take i s | None => s end.
Proof.
  intros Hsep. induction s as [|a s IH].
  - simpl. destruct sep; [done|]. done.
  - cbn [split_go indexOf]. destruct (String.prefix sep (String a s)).
    + done.
    + cbn [fst]. rewrite IH. destruct (indexOf s sep); simpl; [|done]. done.
Qed.

(** C4: in every report row, the row made from a match record by [toRow],
    the file name is the one of the record, and the name space is the part
    of that file name strictly before the first occurrence of the separator
    [__] when the file name contains one, and ["Custom"] otherwise; a row
    whose file name is ["ns__MyClass.cls"] has the name space ["ns"] and one
    whose file name is ["MyClass.cls"] has the name space ["Custom"]. *)
Theorem nameSpace_derivation (item : MatchRecord.t) :
  ReportRow.fileName (toRow item) = MatchRecord.fileName item
  ∧ match indexOf (ReportRow.fileName (toRow item)) "__" with
    | Some i =>
        firstOccurrence (ReportRow.fileName (toRow item)) "__" i
        ∧ ReportRow.nameSpace (toRow item) = take i (ReportRow.fileName (toRow item))
    | None =>
        (∀ i, ¬ occursAt (ReportRow.fileName (toRow item)) "__" i)
        ∧ ReportRow.nameSpace (toRow item) = "Custom"
    end
  ∧ (∀ type subType matches detail,
       ReportRow.nameSpace
         (toRow (MatchRecord.mk type subType "ns__MyClass.cls" matches detail)) = "ns"
       ∧ ReportRow.nameSpace
           (toRow (MatchRecord.mk type subType "MyClass.cls" matches detail)) = "Custom").
Proof.
  split; [reflexivity|]. split; [|intros; split; reflexivity].
  cbn [toRow ReportRow.fileName ReportRow.nameSpace].
  generalize (MatchRecord.fileName item). intros fileName.
  unfold nameSpaceOf. rewrite includes_indexOf.
  destruct (indexOf fileName "__") as [i|] eqn:E.
  - split; [by apply indexOf_Some|].
    rewrite bool_decide_eq_true_2 by eauto.
    unfold split. cbn [list_lookup_total].
    change ((split_go "__" 0 fileName).1 = take i fileName).
    rewrite split_go_head by done. by rewrite E.
  - split; [intros i; by apply indexOf_None|].
    rewrite bool_decide_eq_false_2; [done|]. by intros [? ?].
Qed.

(** ** The detail string *)

Lemma prefix_cons c p a s :
  String.prefix (String c p) (String a s)
  = if ascii_dec c a then String.prefix p s else false.
Proof. reflexivity. Qed.

Lemma prefix_cons_nil c p : String.prefix (String c p) EmptyString = false.
Proof. reflexivity. Qed.

Lemma prefix_nil s : String.prefix EmptyString s = true.
Proof. by destruct s. Qed.

Lemma crlf_prefix a s :
  String.prefix (String CR (String LF EmptyString)) (String a s) = true →
  a = CR ∧ ∃ s', s = String LF s'.
Proof.
  rewrite prefix_cons. destruct (ascii_dec CR a) as [<-|]; [|done].
  destruct s as [|b s]; [by rewrite prefix_cons_nil|].
  rewrite prefix_cons. destruct (ascii_dec LF b) as [<-|]; [|done]. eauto.
Qed.

Lemma removeNewLines_strip s : removeNewLines s = stripLineBreaks s.
Proof.
  unfold removeNewLines. induction s as [|a s IH]; [done|].
  cbn [removeNewLines_go stripLineBreaks].
  destruct (String.prefix _ (String a s)) eqn:E.
  - apply crlf_prefix in E as [-> [s' ->]].
    rewrite bool_decide_eq_true_2 by auto.
    rewrite <- IH. reflexivity.
  - case_bool_decide as H1; [subst a; by rewrite bool_decide_eq_true_2 by auto|].
    case_bool_decide as H2; [subst a; by rewrite bool_decide_eq_true_2 by auto|].
    rewrite bool_decide_eq_false_2 by (intros [|]; done). by rewrite IH.
Qed.

Lemma collapse_normalizedFrom b s : normalizedFrom b (collapseWhiteSpace_go b s).
Proof.
  revert b. induction s as [|a s IH]; intros b; [done|].
  cbn [collapseWhiteSpace_go]. destruct (isWhiteSpace a) eqn:E.
  - destruct b; [apply IH|]. cbn [normalizedFrom].
    change (isWhiteSpace " ") with true. cbv iota. auto.
  - cbn [normalizedFrom]. rewrite E. apply IH.
Qed.

Lemma collapse_normalized_id b s :
  normalizedFrom b s → collapseWhiteSpace_go b s = s.
Proof.
  revert b. induction s as [|a s IH]; intros b; [done|].
  cbn [collapseWhiteSpace_go normalizedFrom]. destruct (isWhiteSpace a).
  - intros (-> & -> & H). by rewrite IH.
  - intros H. by rewrite IH.
Qed.

Lemma strip_normalized_id b s : normalizedFrom b s → stripLineBreaks s = s.
Proof.
  revert b. induction s as [|a s IH]; intros b; [done|].
  cbn [stripLineBreaks normalizedFrom]. case_bool_decide as H.
  - destruct H as [-> | ->]; vm_compute; by intros [? _].
  - destruct (isWhiteSpace a); [intros (_ & _ & H')|intros H']; by erewrite IH.
Qed.

Lemma cleanExtractedText_normalized s : normalized (cleanExtractedText s).
Proof. apply collapse_normalizedFrom. Qed.

Lemma cleanExtractedText_idemp s :
  cleanExtractedText (cleanExtractedText s) = cleanExtractedText s.
Proof.
  pose proof (cleanExtractedText_normalized s) as H.
  unfold cleanExtractedText at 1. rewrite removeNewLines_strip.
  rewrite (strip_normalized_id _ _ H). by apply collapse_normalized_id.
Qed.

Lemma orEmpty_id x : orEmpty x = x.
Proof. unfold orEmpty. by case_bool_decide. Qed.

Lemma detailText_groups d : detailText d = join " || " (detailGroup <$> d).
Proof.
  unfold detailText. rewrite orEmpty_id. f_equal.
  apply list_fmap_ext. intros _ [k vs] _. unfold detailGroup. cbn [fst snd].
  do 3 f_equal. apply list_fmap_ext. intros _ v _.
  unfold cleanExtractedText. by rewrite removeNewLines_strip.
Qed.

Lemma append_cons a s1 s2 : String a s1 +:+ s2 = String a (s1 +:+ s2).
Proof. reflexivity. Qed.

Lemma append_nil_l s : EmptyString +:+ s = s.
Proof. reflexivity. Qed.

Lemma length_append s1 s2 :
  String.length (s1 +:+ s2) = String.length s1 + String.length s2.
Proof.
  induction s1 as [|a s1 IH]; [done|].
  rewrite append_cons. cbn [String.length]. by rewrite IH.
Qed.

(** An entry whose list of captures is empty still yields its [name: ]
    group: only a record without any entry has an empty detail string. *)
Lemma detailText_empty_iff d : detailText d = EmptyString ↔ d = [].
Proof.
  split; [|by intros ->].
  rewrite detailText_groups. destruct d as [|[k vs] d]; [done|].
  unfold join. cbn [fmap list_fmap String.concat].
  destruct (detailGroup <$> d); unfold detailGroup; cbn [fst snd];
    intros H; apply (f_equal String.length) in H;
    rewrite !length_append in H; simpl in H; lia.
Qed.

Example detailText_empty_captures :
  detailText [("action", [])] = "action: ".
Proof. reflexivity. Qed.

Lemma append_nil_r s : s +:+ EmptyString = s.
Proof. induction s as [|a s IH]; [done|]. by rewrite append_cons, IH. Qed.

(** C3 fails on the code: a record whose extractor captured nothing has no
    detail capture at all, and its detail string is not empty. *)
Lemma no_capture_detail_not_empty :
  concat (snd <$> MatchRecord.detail emptyCapturesRecord) = []
  ∧ ReportRow.detail (toRow emptyCapturesRecord) = "webServiceName: "
  ∧ ReportRow.detail (toRow emptyCapturesRecord) ≠ EmptyString.
Proof. split; [reflexivity|]. split; [reflexivity|discriminate]. Qed.

(** C3, as the code has it: the detail string of a row is a function of the
    detail captures of its record alone: two records with the same captures
    give the same string.  That string is made of one [name: values] group
    per entry, the groups joined by [" || "] and the values of a group by
    [" | "], every value being first stripped of its line breaks and then
    having its runs of white space collapsed, so that a joined value is
    normalized (and normalizing it again changes nothing).  It is empty
    exactly when the record has no detail entry: an entry without captures
    still gives its [name: ] group. *)
Theorem detail_pure_function (item1 item2 : MatchRecord.t) :
  MatchRecord.detail item1 = MatchRecord.detail item2 →
  ReportRow.detail (toRow item1) = ReportRow.detail (toRow item2)
  ∧ ReportRow.detail (toRow item1)
    = join " || " (detailGroup <$> MatchRecord.detail item1)
  ∧ (∀ v, cleanExtractedText v = collapseWhiteSpace (stripLineBreaks v)
          ∧ normalized (cleanExtractedText v)
          ∧ cleanExtractedText (cleanExtractedText v) = cleanExtractedText v)
  ∧ (ReportRow.detail (toRow item1) = EmptyString ↔ MatchRecord.detail item1 = [])
  ∧ (∀ name, detailGroup (name, []) = name +:+ ": ").
Proof.
  intros H. cbn [toRow ReportRow.detail]. split; [by rewrite H|].
  split; [apply detailText_groups|]. split; [|split].
  - intros v. split; [|split].
    + unfold cleanExtractedText. by rewrite removeNewLines_strip.
    + apply cleanExtractedText_normalized.
    + apply cleanExtractedText_idemp.
  - apply detailText_empty_iff.
  - intros name. unfold detailGroup, join. cbn [fst snd fmap list_fmap String.concat].
    by rewrite append_nil_r.
Qed.

Lemma detail_pure_function_witness :
  ReportRow.detail (toRow (sampleRecord "A.cls"))
  = ReportRow.detail (toRow (sampleRecord "ns__B.cls"))
  ∧ ReportRow.detail (toRow (sampleRecord "A.cls"))
    = "endPoint: 'https://a' + path) | url)  || action: ".
Proof.
  destruct (detail_pure_function (sampleRecord "A.cls") (sampleRecord "ns__B.cls") eq_refl)
    as (H1 & H2 & _).
  split; [exact H1 | rewrite H2; vm_compute; reflexivity].
Defined.

(** ** Enumeration of the matches of a pattern *)

Lemma drop_0 s : drop 0 s = s.
Proof. by destruct s. Qed.

Lemma drop_S a s n : drop (S n) (String a s) = drop n s.
Proof. reflexivity. Qed.

Lemma exec_here_length ic da p s n g :
  exec_here ic da p s = Some (n, g) → n ≤ String.length s.
Proof.
  revert s n g. induction p as [|nd p IH]; intros s n g.
  - intros [= <- <-]. lia.
  - destruct nd as [c|rs|].
    + cbn [exec_here]. destruct s as [|a s]; [done|].
      destruct (lit_matches ic c a); [|done].
      destruct (exec_here ic da p s) as [[n' g']|] eqn:E; [|done].
      intros [= <- <-]. apply IH in E. simpl. lia.
    + cbn [exec_here]. revert n g. induction s as [|a s IHs]; intros n g.
      * apply IH.
      * destruct (set_matches ic rs a); [|apply IH].
        match goal with |- context [match ?x with Some _ => _ | None => _ end] =>
          case_eq x; [intros [n' g'] E | intros E] end.
        -- intros [= <- <-]. apply IHs in E. simpl. lia.
        -- apply IH.
    + cbn [exec_here]. revert n g. induction s as [|a s IHs]; intros n g.
      * destruct (exec_here ic da p EmptyString) as [[n' g']|] eqn:E; [|done].
        intros [= <- <-]. by apply IH in E.
      * destruct (exec_here ic da p (String a s)) as [[n' g']|] eqn:E.
        -- intros [= <- <-]. by apply IH in E.
        -- destruct (dot_matches da a); [|done].
           match goal with |- context [fmap _ ?x] =>
             case_eq x; [intros [n' g'] E' | intros E'] end; [|done].
           intros [= <- <-]. apply IHs in E'. simpl. lia.
Qed.

Lemma exec_length r s n g : exec r s = Some (n, g) → n ≤ String.length s.
Proof. apply exec_here_length. Qed.

Lemma length_drop n s : n ≤ String.length s → String.length (drop n s) = String.length s - n.
Proof.
  revert s. induction n as [|n IH]; intros s H; [rewrite drop_0; lia|].
  destruct s as [|a s]; [simpl in H; lia|]. rewrite drop_S. simpl in *. apply IH. lia.
Qed.

(** Every enumerated match is a match of the pattern, within the text. *)
Lemma scan_sound r s pos skip :
  Forall (λ m, pos + skip ≤ start m ∧ start m ≤ pos + String.length s
               ∧ exec r (drop (start m - pos) s) = Some (len m, group1 m))
         (scan r pos skip s).
Proof.
  revert pos skip. induction s as [|a s IH]; intros pos skip.
  - destruct skip; cbn [scan]; [|constructor].
    destruct (exec r EmptyString) as [[n g]|] eqn:E; constructor; [|constructor].
    cbn [start len group1 fst snd]. replace (pos - pos) with 0 by lia.
    rewrite drop_0. simpl. split; [lia|]. split; [lia|done].
  - assert (Hstep : ∀ k, Forall (λ m, pos + S k ≤ start m ∧ start m ≤ pos + String.length (String a s)
               ∧ exec r (drop (start m - pos) (String a s)) = Some (len m, group1 m))
               (scan r (S pos) k s)).
    { intros k. eapply Forall_impl; [apply IH|]. intros m (H1 & H2 & H3). cbn beta in *.
      split; [lia|]. split; [simpl; lia|].
      replace (start m - pos) with (S (start m - S pos)) by lia. by rewrite drop_S. }
    destruct skip as [|k]; cbn [scan]; [|apply Hstep].
    destruct (exec r (String a s)) as [[n g]|] eqn:E.
    + constructor.
      * cbn [start len group1 fst snd]. replace (pos - pos) with 0 by lia.
        rewrite drop_0. split; [lia|]. split; [lia|done].
      * eapply Forall_impl; [apply (Hstep (n - 1))|]. intros m (H1 & H2 & H3).
        cbn beta. split; [lia|]. done.
    + eapply Forall_impl; [apply (Hstep 0)|]. intros m (H1 & H2 & H3).
      cbn beta. split; [lia|]. done.
Qed.

(** The enumerated matches go from left to right without overlap. *)
Lemma scan_disjoint r s pos skip : disjointFrom (pos + skip) (scan r pos skip s).
Proof.
  revert pos skip. induction s as [|a s IH]; intros pos skip.
  - destruct skip; cbn [scan]; [|done].
    destruct (exec r EmptyString) as [[n g]|]; [|done].
    cbn [disjointFrom start]. split; [lia|done].
  - destruct skip as [|k]; cbn [scan].
    + destruct (exec r (String a s)) as [[n g]|].
      * cbn [disjointFrom start len fst]. split; [lia|].
        replace (Nat.max (pos + n) (S pos)) with (S pos + (n - 1)) by lia. apply IH.
      * replace (pos + 0) with pos by lia.
        assert (H := IH (S pos) 0).
        revert H. generalize (scan r (S pos) 0 s). intros [|m l]; [done|].
        cbn [disjointFrom]. intros [H1 H2]. split; [lia|done].
    + replace (pos + S k) with (S pos + k) by lia. apply IH.
Qed.

(** No match is missed: a position where the pattern matches is the start of
    an enumerated match, or lies within one. *)
Lemma scan_complete r s pos skip j :
  pos + skip ≤ j → j ≤ pos + String.length s →
  is_Some (exec r (drop (j - pos) s)) →
  ∃ m, m ∈ scan r pos skip s ∧ start m ≤ j ∧ (j = start m ∨ j < start m + len m).
Proof.
  revert pos skip. induction s as [|a s IH]; intros pos skip Hlo Hhi Hj.
  - simpl in Hhi. assert (skip = 0) as -> by lia. assert (j = pos) as -> by lia.
    replace (pos - pos) with 0 in Hj by lia. rewrite drop_0 in Hj.
    cbn [scan]. destruct (exec r EmptyString) as [[n g]|]; [|by destruct Hj].
    eexists. split; [apply list_elem_of_here|]. cbn [start]. split; [lia|auto].
  - assert (Hstep : ∀ k, S pos + k ≤ j →
      ∃ m, m ∈ scan r (S pos) k s ∧ start m ≤ j ∧ (j = start m ∨ j < start m + len m)).
    { intros k Hk. apply IH; [lia|simpl in Hhi; lia|].
      replace (j - pos) with (S (j - S pos)) in Hj by lia. by rewrite drop_S in Hj. }
    destruct skip as [|k]; cbn [scan]; [|apply Hstep; lia].
    destruct (exec r (String a s)) as [[n g]|] eqn:E.
    + destruct (decide (j < Nat.max (pos + n) (S pos))) as [Hin|Hout].
      * eexists. split; [apply list_elem_of_here|]. cbn [start len fst].
        split; [lia|]. destruct (decide (j = pos)); [auto|right; lia].
      * destruct (Hstep (n - 1)) as (m & Hm & H1 & H2); [lia|].
        exists m. split; [by apply list_elem_of_further|done].
    + destruct (decide (j = pos)) as [->|Hne].
      * replace (pos - pos) with 0 in Hj by lia. rewrite drop_0, E in Hj. by destruct Hj.
      * apply Hstep. lia.
Qed.

Lemma matchAll_sound r s : Forall (isMatch r s) (matchAll r s).
Proof.
  eapply Forall_impl; [apply (scan_sound r s 0 0)|].
  intros m (_ & H2 & H3). rewrite Nat.sub_0_r in H3. split; [|done].
  apply exec_length in H3. rewrite length_drop in H3 by lia. lia.
Qed.

Lemma matchAll_nonOverlapping r s : nonOverlapping (matchAll r s).
Proof. apply (scan_disjoint r s 0 0). Qed.

Lemma matchAll_complete r s j :
  matches_at r s j →
  ∃ m, m ∈ matchAll r s ∧ start m ≤ j ∧ (j = start m ∨ j < start m + len m).
Proof.
  intros [H1 H2]. apply (scan_complete r s 0 0); [lia|lia|].
  by rewrite Nat.sub_0_r.
Qed.

(** The pattern matches somewhere exactly when the enumeration is not empty. *)
Lemma matchCount_pos r s : 0 < matchCount r s ↔ ∃ i, matches_at r s i.
Proof.
  unfold matchCount. split.
  - intros H. destruct (matchAll r s) as [|m l] eqn:E; [simpl in H; lia|].
    pose proof (matchAll_sound r s) as Hs. rewrite E in Hs.
    apply Forall_cons_1 in Hs as [[H1 H2] _].
    exists (start m). split; [lia|]. rewrite H2. eauto.
  - intros [i Hi]. apply matchAll_complete in Hi as (m & Hm & _).
    destruct (matchAll r s); [by apply elem_of_nil in Hm|simpl; lia].
Qed.

(** ** The matcher *)

Lemma setKey_fresh {V} k (v : V) o : k ∉ o.*1 → setKey k v o = o ++ [(k, v)].
Proof.
  induction o as [|[k' v'] o IH]; [done|]. cbn [setKey fmap list_fmap fst].
  intros H. apply not_elem_of_cons in H as [H1 H2].
  rewrite bool_decide_eq_false_2 by done. cbn [app]. by rewrite IH.
Qed.

Lemma setKey_keys {V} k (v : V) o k' : k' ∈ (setKey k v o).*1 ↔ k' = k ∨ k' ∈ o.*1.
Proof.
  induction o as [|[k1 v1] o IH]; cbn [setKey fmap list_fmap fst].
  - rewrite elem_of_cons. naive_solver.
  - case_bool_decide as H; cbn [fmap list_fmap fst] in *.
    + subst k1. rewrite !elem_of_cons. naive_solver.
    + rewrite !elem_of_cons, IH. naive_solver.
Qed.

Lemma collectDetails_keys ds text acc k :
  k ∈ (collectDetails ds text acc).*1 ↔ k ∈ acc.*1 ∨ k ∈ DetailExtractor.name <$> ds.
Proof.
  revert acc. induction ds as [|d ds IH]; intros acc; cbn [collectDetails].
  - rewrite fmap_nil, elem_of_nil. naive_solver.
  - rewrite IH, setKey_keys, fmap_cons, elem_of_cons. naive_solver.
Qed.

Lemma collectDetails_distinct ds text acc :
  NoDup (DetailExtractor.name <$> ds) →
  (∀ k, k ∈ acc.*1 → k ∉ DetailExtractor.name <$> ds) →
  collectDetails ds text acc = acc ++ (detailEntry text <$> ds).
Proof.
  revert acc. induction ds as [|d ds IH]; intros acc Hnd Hdisj; cbn [collectDetails].
  - by rewrite fmap_nil, app_nil_r.
  - rewrite fmap_cons in Hnd. apply NoDup_cons in Hnd as [Hd Hnd].
    rewrite setKey_fresh.
    + rewrite IH; [by rewrite <- app_assoc|done|].
      intros k. rewrite fmap_app, elem_of_app. cbn [fmap list_fmap fst].
      rewrite list_elem_of_singleton. intros [Hk| ->]; [|done].
      apply Hdisj in Hk. rewrite fmap_cons in Hk. by apply not_elem_of_cons in Hk as [_ ?].
    + intros Hk. apply Hdisj in Hk. rewrite fmap_cons in Hk.
      by apply not_elem_of_cons in Hk as [? _].
Qed.

(** What [catchMatches] returns: nothing without a match of the primary
    pattern, one record otherwise. *)
Lemma catchMatches_cases c file text :
  (matchCount (Catcher.regex c) text = 0 ∧ catchMatches c file text = [])
  ∨ (0 < matchCount (Catcher.regex c) text
     ∧ catchMatches c file text =
       [ MatchRecord.mk (Catcher.type c) (Catcher.subType c) file
           (matchCount (Catcher.regex c) text)
           (collectDetails (Catcher.detail c) text []) ]).
Proof.
  unfold catchMatches. destruct (matchCount (Catcher.regex c) text); [by left|].
  right. split; [lia|done].
Qed.

Lemma catchMatches_recordFor c file text r :
  r ∈ catchMatches c file text → recordFor c file r.
Proof.
  destruct (catchMatches_cases c file text) as [[_ ->]|[_ ->]].
  - by intros ?%elem_of_nil.
  - intros ->%list_elem_of_singleton. done.
Qed.

Lemma filter_all {A} (P : A → Prop) `{∀ x, Decision (P x)} (l : list A) :
  (∀ x, x ∈ l → P x) → filter P l = l.
Proof.
  induction l as [|x l IH]; [done|]. intros Hl.
  rewrite filter_cons_True by (apply Hl; left). rewrite IH; [done|].
  intros y Hy. apply Hl. by right.
Qed.

Lemma filter_none {A} (P : A → Prop) `{∀ x, Decision (P x)} (l : list A) :
  (∀ x, x ∈ l → ¬ P x) → filter P l = [].
Proof.
  induction l as [|x l IH]; [done|]. intros Hl.
  rewrite filter_cons_False by (apply Hl; left). apply IH.
  intros y Hy. apply Hl. by right.
Qed.

Lemma filter_catchMatches_same c file text :
  filter (recordFor c file) (catchMatches c file text) = catchMatches c file text.
Proof. apply filter_all. intros r. apply catchMatches_recordFor. Qed.

Lemma filter_catchMatches_other c c' file file' text' :
  catcherKey c' ≠ catcherKey c ∨ file' ≠ file →
  filter (recordFor c file) (catchMatches c' file' text') = [].
Proof.
  intros Hne. apply filter_none. intros r Hr (H1 & H2 & H3).
  apply catchMatches_recordFor in Hr as (H1' & H2' & H3').
  destruct Hne as [Hk|Hf]; [|congruence].
  apply Hk. unfold catcherKey. congruence.
Qed.

Lemma filter_flat_map {A B} (P : B → Prop) `{∀ x, Decision (P x)} (f : A → list B) l :
  filter P (flat_map f l) = flat_map (λ x, filter P (f x)) l.
Proof.
  induction l as [|x l IH]; [done|]. cbn [flat_map]. by rewrite filter_app, IH.
Qed.

Lemma flat_map_nil {A B} (f : A → list B) l :
  (∀ x, x ∈ l → f x = []) → flat_map f l = [].
Proof.
  induction l as [|x l IH]; [done|]. intros H. cbn [flat_map].
  rewrite (H x) by left. apply IH. intros y Hy. apply H. by right.
Qed.

(** Among the contributions of pairwise distinct items, the one of [x]. *)
Lemma flat_map_select {A B} (f g : A → list B) (l : list A) (x : A) :
  NoDup l → x ∈ l → g x = f x → (∀ y, y ∈ l → y ≠ x → g y = []) →
  flat_map g l = f x.
Proof.
  induction l as [|y l IH]; intros Hnd Hx Hgx Hg; [by apply elem_of_nil in Hx|].
  apply NoDup_cons in Hnd as [Hy Hnd]. cbn [flat_map].
  apply elem_of_cons in Hx as [->|Hx].
  - rewrite Hgx, flat_map_nil, app_nil_r; [done|].
    intros z Hz. apply Hg; [by right|]. intros ->. done.
  - rewrite (Hg y), IH; [done..| |left|]; [|by intros ->].
    intros z Hz. apply Hg. by right.
Qed.

Lemma NoDup_fmap_eq {A B} (f : A → B) (l : list A) x y :
  NoDup (f <$> l) → x ∈ l → y ∈ l → f x = f y → x = y.
Proof.
  induction l as [|z l IH]; intros Hnd Hx Hy Hxy; [by apply elem_of_nil in Hx|].
  rewrite fmap_cons in Hnd. apply NoDup_cons in Hnd as [Hz Hnd].
  apply elem_of_cons in Hx as [->|Hx]; apply elem_of_cons in Hy as [->|Hy]; auto.
  - exfalso. apply Hz. rewrite Hxy. by apply list_elem_of_fmap_2.
  - exfalso. apply Hz. rewrite <- Hxy. by apply list_elem_of_fmap_2.
Qed.

Lemma filter_catchers c cs file text :
  NoDup (catcherKey <$> cs) → c ∈ cs →
  filter (recordFor c file) (flat_map (λ c', catchMatches c' file text) cs)
  = catchMatches c file text.
Proof.
  intros Hnd Hc. rewrite filter_flat_map.
  apply (flat_map_select (λ c', catchMatches c' file text)); [|done| |].
  - by apply NoDup_fmap_1 in Hnd.
  - apply filter_catchMatches_same.
  - intros c' Hc' Hne. apply filter_catchMatches_other. left.
    intros Hk. apply Hne. by apply (NoDup_fmap_eq catcherKey cs).
Qed.

(** ** The loop over the files *)

Section Scan.
Variable readFile : string → outcome string.
Variable catch : Catcher.t → string → string → list MatchRecord.t.

Lemma scanFiles_cons cs file files acc w :
  scanFiles readFile catch cs (file :: files) acc w
  = match readFile file with
    | Resolved fileText =>
        scanFiles readFile catch cs files (acc ++ fileMatches catch cs file fileText) w
    | Rejected e => (w, Rejected e)
    end.
Proof. cbn [scanFiles]. unfold bind, settle. by destruct (readFile file). Qed.

Lemma scanFiles_app cs l1 l2 acc w :
  scanFiles readFile catch cs (l1 ++ l2) acc w
  = bind (scanFiles readFile catch cs l1 acc) (scanFiles readFile catch cs l2) w.
Proof.
  revert acc. induction l1 as [|f l1 IH]; intros acc; [done|].
  cbn [app]. unfold bind in *. rewrite !scanFiles_cons.
  destruct (readFile f); [apply IH|done].
Qed.

Lemma scanFiles_readable cs files acc w :
  Forall (readable readFile) files →
  scanFiles readFile catch cs files acc w
  = (w, Resolved (acc ++ flat_map (λ f, fileMatches catch cs f (textOf readFile f)) files)).
Proof.
  revert acc. induction files as [|f files IH]; intros acc Hall.
  - cbn. by rewrite app_nil_r.
  - apply Forall_cons_1 in Hall as [[t Ht] Hall]. rewrite scanFiles_cons, Ht.
    rewrite IH by done. cbn [flat_map]. unfold textOf at 2. rewrite Ht.
    by rewrite app_assoc.
Qed.

Lemma scanFiles_rejected cs pre file post acc w e :
  Forall (readable readFile) pre → readFile file = Rejected e →
  scanFiles readFile catch cs (pre ++ file :: post) acc w = (w, Rejected e).
Proof.
  intros Hpre He. rewrite scanFiles_app. unfold bind.
  rewrite scanFiles_readable by done. by rewrite scanFiles_cons, He.
Qed.

Lemma scanFiles_resolved_inv cs files acc w w' results :
  scanFiles readFile catch cs files acc w = (w', Resolved results) →
  Forall (readable readFile) files.
Proof.
  revert acc. induction files as [|f files IH]; intros acc; [constructor|].
  rewrite scanFiles_cons. destruct (readFile f) as [t|e] eqn:E; [|done].
  intros H. constructor; [by exists t|by eapply IH].
Qed.

Lemma skipped_fileMatches cs file fileText :
  skipped fileText = true → fileMatches catch cs file fileText = [].
Proof. unfold fileMatches. by intros ->. Qed.

End Scan.

(** C5: a file whose text starts with the exclusion marker [hidden] or
    contains the test marker [@isTest] adds nothing to the match results,
    whatever the matcher would find in it: the scan of a list of files with
    such a file in it is the scan of the list without it. *)
Theorem skipped_file_contributes_nothing
    (readFile : string → outcome string)
    (catch : Catcher.t → string → string → list MatchRecord.t)
    (cs : list Catcher.t) (pre post : list string) (file fileText : string)
    (acc : list MatchRecord.t) (w : world) :
  readFile file = Resolved fileText →
  startsWith fileText "hidden" = true ∨ includes fileText "@isTest" = true →
  fileMatches catch cs file fileText = []
  ∧ scanFiles readFile catch cs (pre ++ file :: post) acc w
    = scanFiles readFile catch cs (pre ++ post) acc w.
Proof.
  intros Hread Hskip.
  assert (Hs : skipped fileText = true).
  { unfold skipped. destruct Hskip as [-> | ->]; [done|apply orb_true_r]. }
  split; [by apply skipped_fileMatches|].
  rewrite !scanFiles_app. unfold bind.
  destruct (scanFiles readFile catch cs pre acc w) as [w1 [acc1|e]]; [|done].
  rewrite scanFiles_cons, Hread, skipped_fileMatches by done. by rewrite app_nil_r.
Qed.

Lemma skipped_file_contributes_nothing_witness :
  fileMatches catchMatches catchers "classes/SvcTest.cls"
    "@isTest class SvcTest { webservice static void ping() { } }" = []
  ∧ scanFiles sampleFiles catchMatches catchers
      (["classes/Svc.cls"] ++ "classes/SvcTest.cls" :: ["classes/Old.cls"]) []
      (mkWorld ∅ [])
    = scanFiles sampleFiles catchMatches catchers
        (["classes/Svc.cls"] ++ ["classes/Old.cls"]) [] (mkWorld ∅ []).
Proof.
  apply (skipped_file_contributes_nothing sampleFiles catchMatches catchers);
    [reflexivity | right; reflexivity].
Defined.

Lemma elem_of_flat_map {A B} (f : A → list B) (l : list A) (y : B) :
  y ∈ flat_map f l ↔ ∃ x, x ∈ l ∧ y ∈ f x.
Proof.
  induction l as [|x l IH]; cbn [flat_map].
  - split; [by intros ?%elem_of_nil|]. by intros (? & ?%elem_of_nil & _).
  - rewrite elem_of_app, IH. split.
    + intros [H|(x' & H1 & H2)]; [exists x; split; [left|done]|].
      exists x'. split; [by right|done].
    + intros (x' & [->|H1]%elem_of_cons & H2); [by left|]. right. eauto.
Qed.

(** C1: after a scan in which every file was read, the results are the
    records found for each file that is not skipped and each catcher, in
    that order.  For a catcher [c] of the set and such a file, the records
    found are part of the results; there is one if the primary pattern of
    [c] matches somewhere in the text of the file, and none otherwise.  The
    [matches] of that record is the number of the matches of the pattern
    enumerated from left to right, which are matches, do not overlap and
    leave no matching position uncovered; its [detail] has an entry for
    every extractor of [c], the one of an extractor with a name of its own
    being the list of its captures, possibly empty.  When the paths are
    distinct and the catchers have distinct labels, these are all the
    records of the results labelled with [c] and the file. *)
Theorem one_record_per_matching_pair
    (readFile : string → outcome string) (cs : list Catcher.t)
    (files : list string) (w w' : world) (results : list MatchRecord.t)
    (c : Catcher.t) (file fileText : string) :
  scanFiles readFile catchMatches cs files [] w = (w', Resolved results) →
  c ∈ cs → file ∈ files →
  readFile file = Resolved fileText → skipped fileText = false →
  results = scanned readFile catchMatches cs files
  ∧ (primaryMatches c fileText ↔ ∃ r, catchMatches c file fileText = [r])
  ∧ (¬ primaryMatches c fileText ↔ catchMatches c file fileText = [])
  ∧ (∀ r, r ∈ catchMatches c file fileText →
       r ∈ results
       ∧ recordFor c file r
       ∧ MatchRecord.matches r = matchCount (Catcher.regex c) fileText
       ∧ MatchRecord.matches r = length (matchAll (Catcher.regex c) fileText)
       ∧ Forall (isMatch (Catcher.regex c) fileText) (matchAll (Catcher.regex c) fileText)
       ∧ nonOverlapping (matchAll (Catcher.regex c) fileText)
       ∧ (∀ j, matches_at (Catcher.regex c) fileText j →
            ∃ m, m ∈ matchAll (Catcher.regex c) fileText
                 ∧ start m ≤ j ∧ (j = start m ∨ j < start m + len m))
       ∧ (∀ d, d ∈ Catcher.detail c →
            ∃ texts, (DetailExtractor.name d, texts) ∈ MatchRecord.detail r)
       ∧ (NoDup (DetailExtractor.name <$> Catcher.detail c) →
            MatchRecord.detail r = detailEntry fileText <$> Catcher.detail c))
  ∧ (NoDup files → NoDup (catcherKey <$> cs) →
       filter (recordFor c file) results = catchMatches c file fileText).
Proof.
  intros Hscan Hc Hfile Hread Hskip.
  pose proof (scanFiles_resolved_inv _ _ _ _ _ _ _ _ Hscan) as Hall.
  rewrite scanFiles_readable in Hscan by done. injection Hscan as _ <-.
  cbn [app]. fold (scanned readFile catchMatches cs files).
  split; [done|].
  assert (Hsub : ∀ r, r ∈ catchMatches c file fileText
                      → r ∈ scanned readFile catchMatches cs files).
  { intros r Hr. apply elem_of_flat_map. exists file. split; [done|].
    unfold fileMatches, textOf. rewrite Hread, Hskip.
    apply elem_of_flat_map. by exists c. }
  assert (Hsel : NoDup files → NoDup (catcherKey <$> cs) →
            filter (recordFor c file) (scanned readFile catchMatches cs files)
            = catchMatches c file fileText).
  { intros Hfiles Hkeys. unfold scanned. rewrite filter_flat_map.
    apply (flat_map_select (λ _, catchMatches c file fileText) _ files file); [done..| |].
    - unfold fileMatches, textOf. rewrite Hread, Hskip. by apply filter_catchers.
    - intros f' _ Hne. unfold fileMatches.
      destruct (skipped (textOf readFile f')); [done|].
      rewrite filter_flat_map. apply flat_map_nil. intros c' _.
      apply filter_catchMatches_other. by right. }
  destruct (catchMatches_cases c file fileText) as [[Hn Hcm]|[Hn Hcm]].
  - assert (Hno : ¬ primaryMatches c fileText) by (intros Hp%matchCount_pos; lia).
    split; [|split; [|split]]; [| |by rewrite Hcm; intros r ?%elem_of_nil|done].
    + split; [done|]. rewrite Hcm. by intros [r ?].
    + done.
  - assert (Hyes : primaryMatches c fileText) by by apply matchCount_pos.
    split; [|split; [|split]]; [| | |done].
    + split; [|done]. intros _. rewrite Hcm. eauto.
    + split; [done|]. by rewrite Hcm.
    + intros r Hin. split; [by apply Hsub|].
      split; [by eapply catchMatches_recordFor|].
      rewrite Hcm in Hin. apply list_elem_of_singleton in Hin as ->.
      cbn [MatchRecord.matches MatchRecord.detail].
      split; [done|]. split; [done|]. split; [apply matchAll_sound|].
      split; [apply matchAll_nonOverlapping|]. split; [apply matchAll_complete|].
      split.
      * intros d Hd.
        assert (Hk : DetailExtractor.name d
                     ∈ (collectDetails (Catcher.detail c) fileText []).*1).
        { apply collectDetails_keys. right. by apply list_elem_of_fmap_2. }
        apply list_elem_of_fmap in Hk as ([k texts] & Hk & Hin). cbn [fst] in Hk.
        exists texts. by rewrite Hk.
      * intros Hnd. by rewrite collectDetails_distinct by (done || by intros ? ?%elem_of_nil).
Qed.

Lemma one_record_per_matching_pair_witness :
  (primaryMatches soapCatcher "global class Svc { webservice static void ping() { } }"
   ↔ ∃ r, catchMatches soapCatcher "classes/Svc.cls"
            "global class Svc { webservice static void ping() { } }" = [r])
  ∧ sampleResults
    = scanned sampleFiles catchMatches catchers
        ["classes/Svc.cls"; "classes/SvcTest.cls"; "classes/Old.cls"].
Proof.
  assert (H := one_record_per_matching_pair sampleFiles catchers
    ["classes/Svc.cls"; "classes/SvcTest.cls"; "classes/Old.cls"]
    emptyWorld emptyWorld sampleResults soapCatcher "classes/Svc.cls"
    "global class Svc { webservice static void ping() { } }").
  destruct H as (H1 & H2 & _).
  - vm_compute. reflexivity.
  - apply list_elem_of_here.
  - apply list_elem_of_here.
  - reflexivity.
  - reflexivity.
  - split; [exact H2 | exact H1].
Defined.

(** ** The sort *)

Section SortWithFacts.
Context {A : Type} (cmp : A → A → Z).

Lemma insertWith_Permutation x l : insertWith cmp x l ≡ₚ x :: l.
Proof.
  induction l as [|y l IH]; [done|]. cbn [insertWith].
  destruct (cmp x y <=? 0)%Z; [done|]. rewrite IH. apply Permutation_swap.
Qed.

Lemma sortWith_Permutation l : sortWith cmp l ≡ₚ l.
Proof.
  induction l as [|x l IH]; [done|]. cbn [sortWith].
  by rewrite insertWith_Permutation, IH.
Qed.

(** An element is inserted before the first one it does not exceed, so
    after every earlier element of its own class. *)
Lemma insertWith_filter (P : A → Prop) `{∀ x, Decision (P x)} x l :
  (∀ y, P x → P y → (cmp x y <= 0)%Z) →
  filter P (insertWith cmp x l) = filter P (x :: l).
Proof.
  intros Hle. induction l as [|y l IH]; [done|]. cbn [insertWith].
  destruct (cmp x y <=? 0)%Z eqn:E; [done|].
  apply Z.leb_gt in E.
  rewrite (filter_cons _ y), IH, !(filter_cons _ x), (filter_cons _ y).
  destruct (decide (P x)) as [Hx|Hx]; [|done].
  destruct (decide (P y)) as [Hy|Hy]; [|done].
  specialize (Hle y Hx Hy). lia.
Qed.

Lemma sortWith_filter (P : A → Prop) `{∀ x, Decision (P x)} l :
  (∀ x y, P x → P y → (cmp x y <= 0)%Z) →
  filter P (sortWith cmp l) = filter P l.
Proof.
  intros Hle. induction l as [|x l IH]; [done|]. cbn [sortWith].
  rewrite insertWith_filter by (intros; by apply Hle).
  by rewrite !(filter_cons _ x), IH.
Qed.

Section Sorted.
Variable le : A → A → Prop.
Hypothesis cmp_le : ∀ x y, (cmp x y <= 0)%Z ↔ le x y.
Hypothesis le_trans : ∀ x y z, le x y → le y z → le x z.
Hypothesis le_total : ∀ x y, le x y ∨ le y x.

Lemma insertWith_sorted x l :
  StronglySorted le l → StronglySorted le (insertWith cmp x l).
Proof.
  induction 1 as [|y l Hl IH Hy]; cbn [insertWith].
  - repeat constructor.
  - destruct (cmp x y <=? 0)%Z eqn:E.
    + apply Z.leb_le, cmp_le in E. constructor; [by constructor|].
      constructor; [done|]. eapply Forall_impl; [exact Hy|]. eauto.
    + apply Z.leb_gt in E. assert (Hyx : le y x).
      { destruct (le_total x y) as [H|H]; [apply cmp_le in H; lia|done]. }
      constructor; [done|].
      rewrite insertWith_Permutation. by constructor.
Qed.

Lemma sortWith_sorted l : StronglySorted le (sortWith cmp l).
Proof.
  induction l as [|x l IH]; [constructor|]. by apply insertWith_sorted.
Qed.
End Sorted.
End SortWithFacts.

Lemma insertWith_fmap {A B} (f : A → B) (cmp : A → A → Z) (cmp' : B → B → Z) x l :
  (∀ a b, cmp' (f a) (f b) = cmp a b) →
  insertWith cmp' (f x) (f <$> l) = f <$> insertWith cmp x l.
Proof.
  intros H. induction l as [|y l IH]; [done|]. cbn [insertWith fmap list_fmap].
  rewrite H. destruct (cmp x y <=? 0)%Z; [done|]. cbn [fmap list_fmap] in *.
  by rewrite IH.
Qed.

Lemma sortWith_fmap {A B} (f : A → B) (cmp : A → A → Z) (cmp' : B → B → Z) l :
  (∀ a b, cmp' (f a) (f b) = cmp a b) →
  sortWith cmp' (f <$> l) = f <$> sortWith cmp l.
Proof.
  intros H. induction l as [|x l IH]; [done|]. cbn [sortWith fmap list_fmap].
  cbn [fmap list_fmap] in IH. rewrite IH. by apply insertWith_fmap.
Qed.

Lemma compare_refl s : String.compare s s = Eq.
Proof.
  pose proof (String.compare_antisym s s) as H.
  destruct (String.compare s s); done.
Qed.

Lemma compare_Gt a b : String.compare a b = Gt → strLt b a.
Proof. unfold strLt. rewrite (String.compare_antisym a b). by destruct (String.compare b a). Qed.

Lemma strLt_irrefl a : ¬ strLt a a.
Proof. unfold strLt. by rewrite compare_refl. Qed.

Lemma strLt_asym a b : strLt a b → ¬ strLt b a.
Proof. unfold strLt. rewrite (String.compare_antisym a b). by destruct (String.compare b a). Qed.

Lemma strLt_le a b : strLt a b → String.le a b.
Proof. unfold strLt, String.le, String.leb. by intros ->. Qed.

Lemma strLt_trans a b c : strLt a b → strLt b c → strLt a c.
Proof.
  intros Hab Hbc.
  assert (Hac : String.le a c) by (etrans; by apply strLt_le).
  unfold String.le, String.leb in Hac. unfold strLt.
  destruct (String.compare a c) eqn:E; [|done..].
  apply String.compare_eq_iff in E as ->. by apply strLt_asym in Hab.
Qed.

Lemma strLt_trichotomy a b : strLt a b ∨ a = b ∨ strLt b a.
Proof.
  destruct (String.compare a b) eqn:E.
  - right. left. by apply String.compare_eq_iff.
  - by left.
  - right. right. by apply compare_Gt.
Qed.

Lemma lexLe_trans {A} (f : A → string) (le2 : A → A → Prop) :
  (∀ x y z, le2 x y → le2 y z → le2 x z) →
  ∀ x y z, lexLe f le2 x y → lexLe f le2 y z → lexLe f le2 x z.
Proof.
  intros Ht x y z [H1|[E1 H1]] [H2|[E2 H2]]; unfold lexLe.
  - left. by eapply strLt_trans.
  - left. by rewrite <- E2.
  - left. by rewrite E1.
  - right. split; [congruence|eauto].
Qed.

Lemma lexLe_total {A} (f : A → string) (le2 : A → A → Prop) :
  (∀ x y, le2 x y ∨ le2 y x) → ∀ x y, lexLe f le2 x y ∨ lexLe f le2 y x.
Proof.
  intros Ht x y. unfold lexLe.
  destruct (strLt_trichotomy (f x) (f y)) as [H|[H|H]]; [by left; left| |by right; left].
  destruct (Ht x y); [left|right]; right; done.
Qed.

Lemma rowLe_lex x y :
  rowLe x y ↔
  lexLe ReportRow.type (lexLe ReportRow.subType (lexLe ReportRow.fileName
    (λ x y, ReportRow.matches y ≤ ReportRow.matches x))) x y.
Proof. reflexivity. Qed.

Lemma rowLe_trans x y z : rowLe x y → rowLe y z → rowLe x z.
Proof.
  rewrite !rowLe_lex. repeat apply lexLe_trans. intros; lia.
Qed.

Lemma rowLe_total x y : rowLe x y ∨ rowLe y x.
Proof.
  rewrite !rowLe_lex. repeat apply lexLe_total. intros; lia.
Qed.

Lemma rowObject_type r : rowObject r !! "type" = Some (VStr (ReportRow.type r)).
Proof. unfold rowObject. by simplify_map_eq. Qed.

Lemma rowObject_subType r : rowObject r !! "subType" = Some (VStr (ReportRow.subType r)).
Proof. unfold rowObject. by simplify_map_eq. Qed.

Lemma rowObject_fileName r : rowObject r !! "fileName" = Some (VStr (ReportRow.fileName r)).
Proof. unfold rowObject. by simplify_map_eq. Qed.

Lemma rowObject_nameSpace r : rowObject r !! "nameSpace" = Some (VStr (ReportRow.nameSpace r)).
Proof. unfold rowObject. by simplify_map_eq. Qed.

Lemma rowObject_matches r :
  rowObject r !! "matches" = Some (VNum (Z.of_nat (ReportRow.matches r))).
Proof. unfold rowObject. by simplify_map_eq. Qed.

Lemma rowObject_detail r : rowObject r !! "detail" = Some (VStr (ReportRow.detail r)).
Proof. unfold rowObject. by simplify_map_eq. Qed.

Lemma compareValues_strings a b :
  compareValues asc (Some (VStr a)) (Some (VStr b)) = signOf (String.compare a b).
Proof.
  unfold compareValues, lessThan, String.ltb. case_bool_decide as H.
  - injection H as ->. by rewrite compare_refl.
  - rewrite (String.compare_antisym b a).
    destruct (String.compare a b) eqn:E; [|done..].
    apply String.compare_eq_iff in E. congruence.
Qed.

Lemma compareValues_numbers_desc a b :
  compareValues desc (Some (VNum a)) (Some (VNum b)) = signOf (Z.compare b a).
Proof.
  unfold compareValues, lessThan. case_bool_decide as H.
  - injection H as ->. by rewrite Z.compare_refl.
  - assert (a ≠ b) by congruence.
    destruct (Z.ltb_spec a b), (Z.ltb_spec b a), (Z.compare_spec b a); simpl; lia.
Qed.

(** The comparator of the command on two rows, key after key. *)
Lemma compareRows_unfold x y :
  compareRows x y =
  let r1 := signOf (String.compare (ReportRow.type x) (ReportRow.type y)) in
  if (r1 =? 0)%Z then
    let r2 := signOf (String.compare (ReportRow.subType x) (ReportRow.subType y)) in
    if (r2 =? 0)%Z then
      let r3 := signOf (String.compare (ReportRow.fileName x) (ReportRow.fileName y)) in
      if (r3 =? 0)%Z then
        signOf (Z.compare (Z.of_nat (ReportRow.matches y)) (Z.of_nat (ReportRow.matches x)))
      else r3
    else r2
  else r1.
Proof.
  unfold compareRows, sortKeys, sortOrder. cbn [compareFunc head tail default].
  rewrite !rowObject_type, !rowObject_subType, !rowObject_fileName, !rowObject_matches.
  rewrite !compareValues_strings, compareValues_numbers_desc. cbv zeta.
  repeat match goal with |- context [(?r =? 0)%Z] => destruct (r =? 0)%Z eqn:? end;
    try done. by apply Z.eqb_eq.
Qed.

Lemma signOf_compare a b :
  (signOf (String.compare a b) = -1 ∧ strLt a b)%Z
  ∨ (signOf (String.compare a b) = 0 ∧ a = b)%Z
  ∨ (signOf (String.compare a b) = 1 ∧ strLt b a)%Z.
Proof.
  destruct (String.compare a b) eqn:E.
  - right. left. split; [done|]. by apply String.compare_eq_iff.
  - left. done.
  - right. right. split; [done|]. by apply compare_Gt.
Qed.

Lemma compareRows_le x y : (compareRows x y <= 0)%Z ↔ rowLe x y.
Proof.
  rewrite compareRows_unfold. unfold rowLe. cbv zeta.
  destruct (signOf_compare (ReportRow.type x) (ReportRow.type y)) as [[-> H1]|[[-> H1]|[-> H1]]];
    cbn [Z.eqb].
  - split; [by left|lia].
  - destruct (signOf_compare (ReportRow.subType x) (ReportRow.subType y))
      as [[-> H2]|[[-> H2]|[-> H2]]]; cbn [Z.eqb].
    + split; [by right; split; [|left]|lia].
    + destruct (signOf_compare (ReportRow.fileName x) (ReportRow.fileName y))
        as [[-> H3]|[[-> H3]|[-> H3]]]; cbn [Z.eqb].
      * split; [by right; split; [|right; split; [|left]]|lia].
      * rewrite H1, H2, H3.
        destruct (Z.compare_spec (Z.of_nat (ReportRow.matches y)) (Z.of_nat (ReportRow.matches x)));
          cbn [signOf]; split; try lia.
        -- intros _. right. split; [done|]. right. split; [done|]. right. split; [done|lia].
        -- intros _. right. split; [done|]. right. split; [done|]. right. split; [done|lia].
        -- intros [H'|[_ [H'|[_ [H'|[_ H']]]]]]; try (by apply strLt_irrefl in H'). lia.
      * split; [lia|]. rewrite H1, H2.
        intros [H'|[_ [H'|[_ [H'|[H' _]]]]]]; try (by apply strLt_irrefl in H').
        -- by apply strLt_asym in H3.
        -- rewrite H' in H3. by apply strLt_irrefl in H3.
    + split; [lia|]. rewrite H1.
      intros [H'|[_ [H'|[H' _]]]]; try (by apply strLt_irrefl in H').
      * by apply strLt_asym in H2.
      * rewrite H' in H2. by apply strLt_irrefl in H2.
  - split; [lia|]. intros [H'|[H' _]].
    + by apply strLt_asym in H1.
    + rewrite H' in H1. by apply strLt_irrefl in H1.
Qed.

Lemma sameKeys_le r x y : sameKeys r x → sameKeys r y → rowLe x y.
Proof.
  intros (H1 & H2 & H3 & H4) (H1' & H2' & H3' & H4'). unfold rowLe.
  right. split; [congruence|]. right. split; [congruence|].
  right. split; [congruence|lia].
Qed.

(** ** The operations on the heap *)

Lemma bind_resolved {A B} (m : M A) (k : A → M B) w w' a :
  m w = (w', Resolved a) → bind m k w = k a w'.
Proof. unfold bind. by intros ->. Qed.

Lemma bind_rejected {A B} (m : M A) (k : A → M B) w w' e :
  m w = (w', Rejected e) → bind m k w = (w', Rejected e).
Proof. unfold bind. by intros ->. Qed.

Lemma rowsAt_mono h h' ls os : preserved h h' → rowsAt h ls os → rowsAt h' ls os.
Proof. intros Hp H. eapply Forall2_impl; [exact H|]. intros l o. apply Hp. Qed.

Lemma rowsAt_defined h ls os l : rowsAt h ls os → l ∈ ls → ∃ o, h !! l = Some (CObj o).
Proof.
  induction 1 as [|l' o ls os H _ IH]; [by intros ?%elem_of_nil|].
  intros [->|Hl]%elem_of_cons; eauto.
Qed.

Lemma mapM_getObject w ls os :
  rowsAt (heap w) ls os → mapM getObject ls w = (w, Resolved os).
Proof.
  induction 1 as [|l o ls os H _ IH]; [done|]. cbn [mapM].
  erewrite bind_resolved; [|unfold getObject; by rewrite H].
  erewrite bind_resolved; [|exact IH]. done.
Qed.

Lemma getArray_resolved w a ls :
  heap w !! a = Some (CArr ls) → getArray a w = (w, Resolved ls).
Proof. unfold getArray. by intros ->. Qed.

Lemma getRows_resolved w a os :
  arrayOf (heap w) a os → getRows a w = (w, Resolved os).
Proof.
  intros (ls & Ha & Hrows). unfold getRows.
  erewrite bind_resolved; [|by apply getArray_resolved]. by apply mapM_getObject.
Qed.

Lemma alloc_fresh (w : world) :
  heap w !! fresh (dom (heap w)) = None.
Proof. apply not_elem_of_dom, is_fresh. Qed.

(** Allocating objects: new cells, in cells that were free. *)
Lemma mapM_alloc os w :
  ∃ w' ls,
    mapM (λ o, alloc (CObj o)) os w = (w', Resolved ls)
    ∧ console w' = console w
    ∧ rowsAt (heap w') ls os
    ∧ NoDup ls
    ∧ (∀ l, l ∈ ls → heap w !! l = None)
    ∧ (∀ l, l ∉ ls → heap w' !! l = heap w !! l).
Proof.
  revert w. induction os as [|o os IH]; intros w.
  - exists w, []. repeat split; [constructor|constructor|by intros ? ?%elem_of_nil].
  - set (l := fresh (dom (heap w))).
    set (w1 := mkWorld (<[l := CObj o]> (heap w)) (console w)).
    destruct (IH w1) as (w' & ls & Hrun & Hc & Hrows & Hnd & Hfree & Hframe).
    assert (Hl : l ∉ ls).
    { intros Hin. apply Hfree in Hin. subst w1. cbn in Hin.
      by rewrite lookup_insert_eq in Hin. }
    exists w', (l :: ls). split; [|split; [|split; [|split; [|split]]]].
    + cbn [mapM]. erewrite bind_resolved; [|reflexivity].
      fold l. fold w1. erewrite bind_resolved; [|exact Hrun]. done.
    + done.
    + constructor; [|done]. rewrite Hframe by done. subst w1. cbn.
      apply lookup_insert_eq.
    + by constructor.
    + intros l' [->|Hin]%elem_of_cons; [apply alloc_fresh|].
      apply Hfree in Hin. subst w1. cbn in Hin.
      apply lookup_insert_None in Hin as [? ?]. done.
    + intros l' Hl'. apply not_elem_of_cons in Hl' as [Hne Hl'].
      rewrite Hframe by done. subst w1. cbn. by rewrite lookup_insert_ne.
Qed.

Lemma newArray_spec os w :
  ∃ w' a ls,
    newArray os w = (w', Resolved a)
    ∧ console w' = console w
    ∧ heap w' !! a = Some (CArr ls)
    ∧ rowsAt (heap w') ls os
    ∧ NoDup ls
    ∧ heap w !! a = None
    ∧ (∀ l, l ∈ ls → heap w !! l = None)
    ∧ preserved (heap w) (heap w').
Proof.
  destruct (mapM_alloc os w) as (w1 & ls & Hrun & Hc & Hrows & Hnd & Hfree & Hframe).
  set (a := fresh (dom (heap w1))).
  assert (Ha1 : heap w1 !! a = None) by apply alloc_fresh.
  assert (Ha : a ∉ ls).
  { intros Hin. destruct (rowsAt_defined _ _ _ _ Hrows Hin) as [o Ho]. congruence. }
  exists (mkWorld (<[a := CArr ls]> (heap w1)) (console w1)), a, ls.
  split; [|split; [|split; [|split; [|split; [|split; [|split]]]]]].
  - unfold newArray. erewrite bind_resolved; [|exact Hrun]. reflexivity.
  - done.
  - cbn. apply lookup_insert_eq.
  - cbn. eapply rowsAt_mono; [|exact Hrows].
    intros l c Hl. rewrite lookup_insert_ne; [done|]. congruence.
  - done.
  - by rewrite <- Hframe.
  - done.
  - intros l c Hl. cbn.
    assert (l ∉ ls) by (intros Hin%Hfree; congruence).
    assert (heap w1 !! l = Some c) as Hl1 by (by rewrite Hframe).
    rewrite lookup_insert_ne; [done|]. congruence.
Qed.

Lemma rowsAt_zip h ls os :
  rowsAt h ls os → Forall (λ p, h !! p.1 = Some (CObj p.2)) (zip ls os).
Proof. induction 1; constructor; done. Qed.

Lemma rowsAt_unzip h (ps : list (loc * obj)) :
  Forall (λ p, h !! p.1 = Some (CObj p.2)) ps → rowsAt h ps.*1 ps.*2.
Proof. induction 1; constructor; done. Qed.

Lemma rowsAt_length h ls os : rowsAt h ls os → length ls = length os.
Proof. apply Forall2_length. Qed.

(** [sortArray] sorts in place: the cell of the array gets the sorted
    references, no other cell changes, and the array itself is returned. *)
Lemma sortArray_spec w a ls os by_ order :
  heap w !! a = Some (CArr ls) → rowsAt (heap w) ls os →
  ∃ ls',
    sortArray a by_ order w
    = (mkWorld (<[a := CArr ls']> (heap w)) (console w), Resolved a)
    ∧ ls' ≡ₚ ls
    ∧ rowsAt (<[a := CArr ls']> (heap w)) ls' (sortWith (compareFunc by_ order) os).
Proof.
  intros Ha Hrows.
  set (sorted := sortWith (λ p q : loc * obj, compareFunc by_ order p.2 q.2) (zip ls os)).
  assert (Hperm : sorted ≡ₚ zip ls os) by apply sortWith_Permutation.
  exists (sorted.*1). split; [|split].
  - unfold sortArray. erewrite bind_resolved; [|by apply getArray_resolved].
    erewrite bind_resolved; [|by apply mapM_getObject]. reflexivity.
  - rewrite Hperm, fst_zip; [done|]. apply rowsAt_length in Hrows. lia.
  - assert (Hsnd : sorted.*2 = sortWith (compareFunc by_ order) os).
    { subst sorted.
      rewrite <- (sortWith_fmap snd (λ p q : loc * obj, compareFunc by_ order p.2 q.2)
                    (compareFunc by_ order)) by done.
      rewrite snd_zip; [done|]. apply rowsAt_length in Hrows. lia. }
    rewrite <- Hsnd.
    assert (Hall : Forall (λ p, heap w !! p.1 = Some (CObj p.2)) sorted).
    { rewrite Hperm. by apply rowsAt_zip. }
    apply rowsAt_unzip. eapply Forall_impl; [exact Hall|].
    intros [l o] Hl. cbn [fst snd] in *. rewrite lookup_insert_ne; [done|]. congruence.
Qed.

Lemma rowsAt_insert_ne h ls os l c :
  rowsAt h ls os → l ∉ ls → rowsAt (<[l := c]> h) ls os.
Proof.
  induction 1 as [|l' o ls os H _ IH]; [constructor|].
  intros [Hne Hl]%not_elem_of_cons. constructor; [|by apply IH].
  by rewrite lookup_insert_ne.
Qed.

Lemma deleteDetail_loop ls : ∀ w os,
  rowsAt (heap w) ls os → NoDup ls →
  ∃ w',
    mapM (λ l, let! o := getObject l in
               store l (CObj (delete "detail" o));; ret l) ls w
    = (w', Resolved ls)
    ∧ console w' = console w
    ∧ rowsAt (heap w') ls (delete "detail" <$> os)
    ∧ (∀ l, l ∉ ls → heap w' !! l = heap w !! l).
Proof.
  induction ls as [|l ls IH]; intros w os Hrows Hnd.
  - apply Forall2_nil_inv_l in Hrows as ->. exists w. repeat split. constructor.
  - apply Forall2_cons_inv_l in Hrows as (o & os' & Hl & Hrows & ->).
    apply NoDup_cons in Hnd as [Hl' Hnd].
    set (w1 := mkWorld (<[l := CObj (delete "detail" o)]> (heap w)) (console w)).
    destruct (IH w1 os') as (w' & Hrun & Hc & Hrows' & Hframe); [|done|].
    { cbn. by apply rowsAt_insert_ne. }
    exists w'. split; [|split; [|split]].
    + cbn [mapM]. erewrite bind_resolved.
      2:{ erewrite bind_resolved; [|unfold getObject; by rewrite Hl].
          erewrite bind_resolved; [|reflexivity]. reflexivity. }
      fold w1. erewrite bind_resolved; [|exact Hrun]. done.
    + done.
    + rewrite fmap_cons. constructor; [|done]. rewrite Hframe by done. cbn.
      apply lookup_insert_eq.
    + intros l0 Hl0. apply not_elem_of_cons in Hl0 as [Hne Hl0].
      rewrite Hframe by done. cbn. by rewrite lookup_insert_ne.
Qed.

Lemma mapDeleteDetail_spec w a ls os :
  heap w !! a = Some (CArr ls) → rowsAt (heap w) ls os → NoDup ls →
  ∃ w' a',
    mapDeleteDetail a w = (w', Resolved a')
    ∧ console w' = console w
    ∧ arrayOf (heap w') a' (delete "detail" <$> os)
    ∧ (∀ l c, l ∉ ls → heap w !! l = Some c → heap w' !! l = Some c).
Proof.
  intros Ha Hrows Hnd.
  destruct (deleteDetail_loop ls w os Hrows Hnd) as (w1 & Hrun & Hc & Hrows1 & Hframe).
  set (a' := fresh (dom (heap w1))).
  assert (Ha' : heap w1 !! a' = None) by apply alloc_fresh.
  exists (mkWorld (<[a' := CArr ls]> (heap w1)) (console w1)), a'.
  split; [|split; [|split]].
  - unfold mapDeleteDetail. erewrite bind_resolved; [|by apply getArray_resolved].
    erewrite bind_resolved; [|exact Hrun]. reflexivity.
  - done.
  - exists ls. cbn. split; [apply lookup_insert_eq|].
    apply rowsAt_insert_ne; [done|]. intros Hin.
    destruct (rowsAt_defined _ _ _ _ Hrows1 Hin) as [o Ho]. congruence.
  - intros l c Hl Hlc. cbn. rewrite lookup_insert_ne; [by rewrite Hframe|].
    intros <-. rewrite Hframe in Ha' by done. congruence.
Qed.

(** The display works on copies: it shows the rows without their [detail]
    and leaves every cell of the heap as it was. *)
Lemma displayTable_spec w a os :
  arrayOf (heap w) a os →
  ∃ w',
    displayTable a w = (w', Resolved tt)
    ∧ console w' = console w ++ [Table (delete "detail" <$> os)]
    ∧ preserved (heap w) (heap w').
Proof.
  intros Harr.
  destruct (newArray_spec os w)
    as (w1 & a1 & ls1 & Hnew & Hc1 & Ha1 & Hrows1 & Hnd1 & _ & Hfree1 & Hpres1).
  destruct (mapDeleteDetail_spec w1 a1 ls1 os Ha1 Hrows1 Hnd1)
    as (w2 & a2 & Hmap & Hc2 & Harr2 & Hframe2).
  exists (mkWorld (heap w2) (console w2 ++ [Table (delete "detail" <$> os)])).
  split; [|split].
  - unfold displayTable, jsonClone.
    erewrite bind_resolved.
    2:{ erewrite bind_resolved; [|by apply getRows_resolved]. exact Hnew. }
    erewrite bind_resolved; [|exact Hmap].
    unfold consoleTable. erewrite bind_resolved; [|by apply getRows_resolved].
    reflexivity.
  - cbn. by rewrite Hc2, Hc1.
  - intros l c Hl. cbn. apply Hframe2; [|by apply Hpres1].
    intros Hin%Hfree1. congruence.
Qed.

Lemma arrayOf_preserved h h' a os : preserved h h' → arrayOf h a os → arrayOf h' a os.
Proof.
  intros Hp (ls & Ha & Hrows). exists ls. split; [by apply Hp|by eapply rowsAt_mono].
Qed.

Lemma callGenerateReports_spec gen w a os cols :
  arrayOf (heap w) a os →
  callGenerateReports gen a cols w
  = (mkWorld (heap w) (console w ++ [Report os cols]), gen os cols).
Proof.
  intros Harr. unfold callGenerateReports.
  erewrite bind_resolved; [|by apply getRows_resolved].
  erewrite bind_resolved; [|reflexivity]. reflexivity.
Qed.

(** ** The sort of the report rows *)

Lemma sortWith_rowObjects (rows : list ReportRow.t) :
  sortWith (compareFunc sortKeys sortOrder) (rowObject <$> rows)
  = rowObject <$> sortRows rows.
Proof. by apply sortWith_fmap. Qed.

(** C2: [sortArray], called with the keys and the directions of the command
    on an array of report rows, leaves in that array a rearrangement of the
    rows in which every row comes before the later ones by [type], then by
    [subType], then by [fileName], all ascending, then by [matches]
    descending; the rows that agree on the four keys keep the relative
    order they had before the sort. *)
Theorem sort_rows_ordered_stable
    (w : world) (arr : loc) (ls : list loc) (rows : list ReportRow.t) :
  heap w !! arr = Some (CArr ls) →
  rowsAt (heap w) ls (rowObject <$> rows) →
  ∃ w' sorted,
    sortArray arr sortKeys sortOrder w = (w', Resolved arr)
    ∧ arrayOf (heap w') arr (rowObject <$> sorted)
    ∧ sorted ≡ₚ rows
    ∧ StronglySorted rowLe sorted
    ∧ ∀ r, filter (sameKeys r) sorted = filter (sameKeys r) rows.
Proof.
  intros Ha Hrows.
  destruct (sortArray_spec w arr ls _ sortKeys sortOrder Ha Hrows)
    as (ls' & Hrun & _ & Hrows').
  rewrite sortWith_rowObjects in Hrows'.
  eexists _, (sortRows rows). split; [exact Hrun|]. split.
  { exists ls'. cbn. split; [apply lookup_insert_eq|exact Hrows']. }
  split; [apply sortWith_Permutation|]. split.
  - apply sortWith_sorted; [apply compareRows_le|apply rowLe_trans|apply rowLe_total].
  - intros r. apply sortWith_filter. intros x y Hx Hy.
    apply compareRows_le. by eapply sameKeys_le.
Qed.

Lemma sort_rows_ordered_stable_witness :
  ∃ w' sorted,
    sortArray 3 sortKeys sortOrder threeRowsWorld = (w', Resolved 3)
    ∧ arrayOf (heap w') 3 (rowObject <$> sorted)
    ∧ sorted ≡ₚ [rowB; rowA; rowB']
    ∧ StronglySorted rowLe sorted
    ∧ ∀ r, filter (sameKeys r) sorted = filter (sameKeys r) [rowB; rowA; rowB'].
Proof.
  apply (sort_rows_ordered_stable threeRowsWorld 3 [0; 1; 2] [rowB; rowA; rowB']).
  - reflexivity.
  - repeat constructor.
Defined.

(** ** The command as a whole *)

Section Run.
Variable glob : string → list string → list string.
Variable GLOB_IGNORE_PATTERNS : list string.
Variable readFile : string → outcome string.
Variable catch : Catcher.t → string → string → list MatchRecord.t.
Variable generateReports : list obj → list column → outcome (list string).

Local Abbreviation files := (glob pattern GLOB_IGNORE_PATTERNS).
Local Abbreviation theRun := (run glob GLOB_IGNORE_PATTERNS readFile catch generateReports).

(** When every file is read: the rows are built, sorted, shown without
    their detail and handed over in full to the report writer, whose
    outcome is the outcome of the command. *)
Lemma run_readable w :
  Forall (readable readFile) files →
  ∃ w' a,
    theRun w
    = (w', match generateReports (reportObjects readFile catch files) columns with
           | Resolved reportFiles => Resolved (mkPayload summary a reportFiles)
           | Rejected e => Rejected e
           end)
    ∧ arrayOf (heap w') a (reportObjects readFile catch files)
    ∧ console w'
      = console w ++ [ Log (browsing files);
                       Table (delete "detail" <$> reportObjects readFile catch files);
                       Report (reportObjects readFile catch files) columns ]
    ∧ preserved (heap w) (heap w').
Proof.
  intros Hall.
  set (w0 := mkWorld (heap w) (console w ++ [Log (browsing files)])).
  set (results := scanned readFile catch catchers files).
  destruct (newArray_spec (rowObject ∘ toRow <$> results) w0)
    as (w1 & a & ls & Hnew & Hc1 & Ha1 & Hrows1 & _ & Hfree & _ & Hpres1).
  destruct (sortArray_spec w1 a ls _ sortKeys sortOrder Ha1 Hrows1)
    as (ls' & Hsort & _ & Hrows2).
  set (w2 := mkWorld (<[a := CArr ls']> (heap w1)) (console w1)) in *.
  assert (Hobjs : sortWith (compareFunc sortKeys sortOrder) (rowObject ∘ toRow <$> results)
                  = reportObjects readFile catch files).
  { rewrite list_fmap_compose. by apply sortWith_fmap. }
  rewrite Hobjs in Hrows2.
  assert (Harr2 : arrayOf (heap w2) a (reportObjects readFile catch files)).
  { exists ls'. split; [apply lookup_insert_eq|done]. }
  destruct (displayTable_spec w2 a _ Harr2) as (w3 & Hshow & Hc3 & Hpres3).
  assert (Harr3 : arrayOf (heap w3) a (reportObjects readFile catch files))
    by by eapply arrayOf_preserved.
  exists (mkWorld (heap w3)
            (console w3 ++ [Report (reportObjects readFile catch files) columns])), a.
  split; [|split; [|split]].
  - unfold run.
    erewrite bind_resolved; [|reflexivity]. fold (browsing files). fold w0.
    erewrite bind_resolved; [|by apply scanFiles_readable].
    cbn [app]. fold (scanned readFile catch catchers files). fold results.
    erewrite bind_resolved; [|exact Hnew].
    erewrite bind_resolved; [|exact Hsort]. fold w2.
    erewrite bind_resolved; [|exact Hshow].
    unfold bind. rewrite (callGenerateReports_spec _ _ _ _ _ Harr3).
    unfold settle. by destruct (generateReports _ _).
  - done.
  - cbn. rewrite Hc3. cbn. rewrite Hc1. cbn. by rewrite <- !app_assoc.
  - intros l c Hl. apply Hpres3. cbn.
    rewrite lookup_insert_ne; [by apply Hpres1|]. intros <-. cbn in Hfree. congruence.
Qed.

(** When a file cannot be read: the command rejects at that file. *)
Lemma run_unreadable w pre file post e :
  files = pre ++ file :: post →
  Forall (readable readFile) pre → readFile file = Rejected e →
  theRun w = (mkWorld (heap w) (console w ++ [Log (browsing files)]), Rejected e).
Proof.
  intros Hfiles Hpre He. unfold run.
  erewrite bind_resolved; [|reflexivity]. fold (browsing files).
  erewrite bind_rejected; [done|]. rewrite Hfiles at 1.
  by apply scanFiles_rejected.
Qed.

Lemma readable_or_not (l : list string) :
  Forall (readable readFile) l
  ∨ ∃ pre file post e,
      l = pre ++ file :: post ∧ Forall (readable readFile) pre
      ∧ readFile file = Rejected e.
Proof.
  induction l as [|f l [IH|(pre & file & post & e & -> & Hpre & He)]].
  - left. constructor.
  - destruct (readFile f) as [t|e] eqn:E.
    + left. constructor; [by exists t|done].
    + right. exists [], f, l, e. split; [done|]. split; [constructor|done].
  - destruct (readFile f) as [t|e'] eqn:E.
    + right. exists (f :: pre), file, post, e. split; [done|].
      split; [constructor; [by exists t|done]|done].
    + right. exists [], f, (pre ++ file :: post), e'.
      split; [done|]. split; [constructor|done].
Qed.

Lemma run_resolved_inv w w' p :
  theRun w = (w', Resolved p) →
  Forall (readable readFile) files
  ∧ ∃ reportFiles,
      generateReports (reportObjects readFile catch files) columns = Resolved reportFiles.
Proof.
  intros Hrun. destruct (readable_or_not files)
    as [Hall|(pre & file & post & e & Hfiles & Hpre & He)].
  - split; [done|]. destruct (run_readable w Hall) as (w1 & a & Hrun' & _).
    rewrite Hrun in Hrun'. destruct (generateReports _ _); [eauto|done].
  - rewrite (run_unreadable w pre file post e) in Hrun; done.
Qed.
End Run.

Lemma catchMatches_no_match c file text :
  ¬ primaryMatches c text → catchMatches c file text = [].
Proof.
  intros Hno. destruct (catchMatches_cases c file text) as [[_ ->]|[Hpos _]]; [done|].
  by apply matchCount_pos in Hpos.
Qed.

Lemma rowObject_has_detail r : is_Some (rowObject r !! "detail").
Proof. rewrite rowObject_detail. eauto. Qed.

(** ** The claims about the command *)

(** C6, as the code has it: a file that cannot be read is not skipped with
    a warning.  The rejection of [readFile] is not caught: the command
    rejects with it at the first such file, having logged only the number
    of files; no row, of this file or of another, is returned. *)
Theorem unreadable_file_rejects_run
    (glob : string → list string → list string) (ignore : list string)
    (readFile : string → outcome string)
    (catch : Catcher.t → string → string → list MatchRecord.t)
    (generateReports : list obj → list column → outcome (list string))
    (w : world) (pre post : list string) (file : string) (e : error) :
  glob pattern ignore = pre ++ file :: post →
  Forall (readable readFile) pre →
  readFile file = Rejected e →
  run glob ignore readFile catch generateReports w
  = (mkWorld (heap w) (console w ++ [Log (browsing (pre ++ file :: post))]), Rejected e).
Proof.
  intros Hfiles Hpre He. rewrite <- Hfiles. by eapply run_unreadable.
Qed.

Lemma unreadable_file_rejects_run_witness :
  run (globOf ["classes/Svc.cls"; "classes/Locked.cls"; "classes/Old.cls"]) []
      sampleFiles catchMatches writerOk emptyWorld
  = (mkWorld ∅ [Log "Browsing 3 files"], Rejected (IOError "classes/Locked.cls")).
Proof.
  apply (unreadable_file_rejects_run _ _ sampleFiles catchMatches writerOk emptyWorld
           ["classes/Svc.cls"] ["classes/Old.cls"] "classes/Locked.cls").
  - reflexivity.
  - repeat constructor. by eexists.
  - reflexivity.
Defined.

(** C6 fails on the code: with a readable file that holds a call-in and an
    unreadable one after it, the command rejects; there is no payload and
    no warning, and the row of the readable file is lost. *)
Lemma unreadable_file_aborts_scan :
  run (globOf ["classes/Svc.cls"; "classes/Locked.cls"]) []
      sampleFiles catchMatches writerOk emptyWorld
  = (mkWorld ∅ [Log "Browsing 2 files"], Rejected (IOError "classes/Locked.cls"))
  ∧ ¬ ∃ w' p,
        run (globOf ["classes/Svc.cls"; "classes/Locked.cls"]) []
            sampleFiles catchMatches writerOk emptyWorld
        = (w', Resolved p).
Proof.
  assert (H : run (globOf ["classes/Svc.cls"; "classes/Locked.cls"]) []
                sampleFiles catchMatches writerOk emptyWorld
              = (mkWorld ∅ [Log "Browsing 2 files"], Rejected (IOError "classes/Locked.cls")))
    by (vm_compute; reflexivity).
  split; [exact H|]. intros (w' & p & Hp). rewrite H in Hp. discriminate.
Qed.

(** C7, as the code has it: a failure of the report writer is not caught
    either.  When every file was read and the writer rejects, the command
    rejects with the error of the writer and returns no payload; the table
    was shown and the writer called with the sorted rows before that. *)
Theorem export_failure_rejects_run
    (glob : string → list string → list string) (ignore : list string)
    (readFile : string → outcome string)
    (catch : Catcher.t → string → string → list MatchRecord.t)
    (generateReports : list obj → list column → outcome (list string))
    (w : world) (e : error) :
  Forall (readable readFile) (glob pattern ignore) →
  generateReports (reportObjects readFile catch (glob pattern ignore)) columns
  = Rejected e →
  ∃ w',
    run glob ignore readFile catch generateReports w = (w', Rejected e)
    ∧ console w'
      = console w
        ++ [ Log (browsing (glob pattern ignore));
             Table (delete "detail"
                      <$> reportObjects readFile catch (glob pattern ignore));
             Report (reportObjects readFile catch (glob pattern ignore)) columns ].
Proof.
  intros Hall He.
  destruct (run_readable glob ignore readFile catch generateReports w Hall)
    as (w' & a & Hrun & _ & Hc & _).
  rewrite He in Hrun. eauto.
Qed.

Lemma export_failure_rejects_run_witness :
  ∃ w',
    run (globOf ["classes/Svc.cls"]) [] sampleFiles catchMatches writerFails emptyWorld
    = (w', Rejected (ExportError "EACCES")).
Proof.
  destruct (export_failure_rejects_run (globOf ["classes/Svc.cls"]) [] sampleFiles
              catchMatches writerFails emptyWorld (ExportError "EACCES"))
    as (w' & H & _).
  - repeat constructor. by eexists.
  - reflexivity.
  - by exists w'.
Defined.

(** C7 fails on the code: when the writer fails, the command returns no
    payload, so the rows do not reach the caller. *)
Lemma export_failure_loses_payload :
  (run (globOf ["classes/Svc.cls"]) [] sampleFiles catchMatches writerFails emptyWorld).2
  = Rejected (ExportError "EACCES")
  ∧ ¬ ∃ w' p,
        run (globOf ["classes/Svc.cls"]) [] sampleFiles catchMatches writerFails emptyWorld
        = (w', Resolved p).
Proof.
  assert (H : (run (globOf ["classes/Svc.cls"]) [] sampleFiles catchMatches writerFails
                 emptyWorld).2 = Rejected (ExportError "EACCES"))
    by (vm_compute; reflexivity).
  split; [exact H|]. intros (w' & p & Hp). rewrite Hp in H. discriminate.
Qed.

(** C8, as the code has it: [sortArray] sorts the array it is given in place
    and returns that same array.  The cell of the array then holds the
    references in sorted order, a rearrangement of the former ones; no other
    cell of the heap changes, so no row object is modified. *)
Theorem sort_is_in_place (w : world) (arr : loc) (ls : list loc) (os : list obj) :
  heap w !! arr = Some (CArr ls) → rowsAt (heap w) ls os →
  ∃ w' ls',
    sortArray arr sortKeys sortOrder w = (w', Resolved arr)
    ∧ heap w' !! arr = Some (CArr ls')
    ∧ ls' ≡ₚ ls
    ∧ rowsAt (heap w') ls' (sortWith (compareFunc sortKeys sortOrder) os)
    ∧ (∀ l, l ≠ arr → heap w' !! l = heap w !! l)
    ∧ console w' = console w.
Proof.
  intros Ha Hrows.
  destruct (sortArray_spec w arr ls os sortKeys sortOrder Ha Hrows)
    as (ls' & Hrun & Hperm & Hrows').
  eexists _, ls'. split; [exact Hrun|]. cbn.
  split; [apply lookup_insert_eq|]. split; [done|]. split; [done|].
  split; [|done]. intros l Hl. by rewrite lookup_insert_ne.
Qed.

Lemma sort_is_in_place_witness :
  ∃ w' ls',
    sortArray 2 sortKeys sortOrder unsortedWorld = (w', Resolved 2)
    ∧ heap w' !! 2 = Some (CArr ls').
Proof.
  destruct (sort_is_in_place unsortedWorld 2 [0; 1] [rowObject rowB; rowObject rowA])
    as (w' & ls' & H1 & H2 & _).
  - reflexivity.
  - repeat constructor.
  - by exists w', ls'.
Defined.

(** C8 fails on the code: the array given to the sort does not keep its
    order; the sort returns that array, now sorted. *)
Lemma sort_reorders_its_input :
  heap unsortedWorld !! 2 = Some (CArr [0; 1])
  ∧ (sortArray 2 sortKeys sortOrder unsortedWorld).2 = Resolved 2
  ∧ heap (sortArray 2 sortKeys sortOrder unsortedWorld).1 !! 2 = Some (CArr [1; 0])
  ∧ heap (sortArray 2 sortKeys sortOrder unsortedWorld).1 !! 2 ≠ heap unsortedWorld !! 2.
Proof.
  assert (H1 : heap unsortedWorld !! 2 = Some (CArr [0; 1])) by reflexivity.
  assert (H2 : heap (sortArray 2 sortKeys sortOrder unsortedWorld).1 !! 2
               = Some (CArr [1; 0])) by (vm_compute; reflexivity).
  split; [exact H1|]. split; [vm_compute; reflexivity|]. split; [exact H2|].
  rewrite H1, H2. discriminate.
Qed.

Lemma scanned_no_record readFile catch cs files :
  (∀ file c, file ∈ files → c ∈ cs → skipped (textOf readFile file) = false →
             catch c file (textOf readFile file) = []) →
  scanned readFile catch cs files = [].
Proof.
  intros Hno. unfold scanned. apply flat_map_nil. intros file Hfile.
  unfold fileMatches. destruct (skipped (textOf readFile file)) eqn:Hs; [done|].
  apply flat_map_nil. intros c Hc. by apply Hno.
Qed.

(** C9: when every file is read and the matcher finds no record for any
    scanned file and catcher, the command completes as long as the report
    writer does: it shows a table without rows, calls the writer with no row
    and the six columns, and returns the summary, an empty array of rows and
    the files that the writer reports. *)
Theorem no_match_empty_report
    (glob : string → list string → list string) (ignore : list string)
    (readFile : string → outcome string)
    (catch : Catcher.t → string → string → list MatchRecord.t)
    (generateReports : list obj → list column → outcome (list string))
    (w : world) (reportFiles : list string) :
  Forall (readable readFile) (glob pattern ignore) →
  (∀ file c, file ∈ glob pattern ignore → c ∈ catchers →
             skipped (textOf readFile file) = false →
             catch c file (textOf readFile file) = []) →
  generateReports [] columns = Resolved reportFiles →
  ∃ w' a,
    run glob ignore readFile catch generateReports w
    = (w', Resolved (mkPayload summary a reportFiles))
    ∧ heap w' !! a = Some (CArr [])
    ∧ console w'
      = console w ++ [Log (browsing (glob pattern ignore)); Table []; Report [] columns].
Proof.
  intros Hall Hno Hgen.
  destruct (run_readable glob ignore readFile catch generateReports w Hall)
    as (w' & a & Hrun & Harr & Hc & _).
  assert (Hobjs : reportObjects readFile catch (glob pattern ignore) = []).
  { unfold reportObjects. by rewrite scanned_no_record. }
  rewrite Hobjs in *. rewrite Hgen in Hrun. exists w', a.
  split; [done|]. split; [|done].
  destruct Harr as (ls & Ha & Hrows). by apply Forall2_nil_inv_r in Hrows as ->.
Qed.

Lemma no_match_empty_report_witness :
  ∃ w' a,
    run (globOf ["classes/Plain.cls"]) [] plainFiles catchMatches writerOk emptyWorld
    = (w', Resolved (mkPayload summary a
                       ["hardis-report/callincallout.csv";
                        "hardis-report/callincallout.xls"]))
    ∧ heap w' !! a = Some (CArr [])
    ∧ console w' = [Log "Browsing 1 files"; Table []; Report [] columns].
Proof.
  apply (no_match_empty_report (globOf ["classes/Plain.cls"]) [] plainFiles catchMatches
           writerOk emptyWorld).
  - repeat constructor. by eexists.
  - intros file c _ Hc _. apply catchMatches_no_match.
    intros Hp%matchCount_pos. unfold textOf, plainFiles in Hp.
    unfold catchers in Hc.
    repeat (apply elem_of_cons in Hc as [->|Hc]); [vm_compute in Hp; lia..|].
    by apply elem_of_nil in Hc.
  - reflexivity.
Defined.

(** C10: when the command completes, the rows handed to the report writer
    and the rows of the array returned in the payload are the sorted rows
    in full, each with its [detail] property, although the table was shown
    from rows without it: the property is removed from copies, the cells
    that the world held before the command being left as they were. *)
Theorem display_leaves_rows_intact
    (glob : string → list string → list string) (ignore : list string)
    (readFile : string → outcome string)
    (catch : Catcher.t → string → string → list MatchRecord.t)
    (generateReports : list obj → list column → outcome (list string))
    (w w' : world) (p : payload) :
  run glob ignore readFile catch generateReports w = (w', Resolved p) →
  arrayOf (heap w') (result p) (reportObjects readFile catch (glob pattern ignore))
  ∧ console w'
    = console w
      ++ [ Log (browsing (glob pattern ignore));
           Table (delete "detail" <$> reportObjects readFile catch (glob pattern ignore));
           Report (reportObjects readFile catch (glob pattern ignore)) columns ]
  ∧ Forall (λ o : obj, is_Some (o !! "detail"))
           (reportObjects readFile catch (glob pattern ignore))
  ∧ Forall (λ o : obj, o !! "detail" = None)
           (delete "detail" <$> reportObjects readFile catch (glob pattern ignore))
  ∧ preserved (heap w) (heap w').
Proof.
  intros Hrun.
  destruct (run_resolved_inv _ _ _ _ _ _ _ _ Hrun) as (Hall & fs & Hgen).
  destruct (run_readable glob ignore readFile catch generateReports w Hall)
    as (w1 & a & Hrun' & Harr & Hc & Hpres).
  rewrite Hgen, Hrun in Hrun'. injection Hrun' as <- ->. cbn [result].
  split; [done|]. split; [done|]. split; [|split; [|done]].
  - unfold reportObjects. apply Forall_fmap, Forall_true. intros r.
    apply rowObject_has_detail.
  - apply Forall_fmap, Forall_true. intros o. apply lookup_delete_eq.
Qed.

Lemma display_leaves_rows_intact_witness :
  Forall (λ o : obj, is_Some (o !! "detail"))
         (reportObjects sampleFiles catchMatches
            (globOf ["classes/Svc.cls"; "classes/SvcTest.cls"] pattern []))
  ∧ Forall (λ o : obj, o !! "detail" = None)
           (delete "detail"
              <$> reportObjects sampleFiles catchMatches
                    (globOf ["classes/Svc.cls"; "classes/SvcTest.cls"] pattern [])).
Proof.
  destruct (display_leaves_rows_intact
              (globOf ["classes/Svc.cls"; "classes/SvcTest.cls"]) []
              sampleFiles catchMatches writerOk emptyWorld
              (run (globOf ["classes/Svc.cls"; "classes/SvcTest.cls"]) []
                 sampleFiles catchMatches writerOk emptyWorld).1
              (mkPayload summary 1
                 ["hardis-report/callincallout.csv"; "hardis-report/callincallout.xls"]))
    as (_ & _ & H1 & H2 & _).
  - vm_compute. reflexivity.
  - exact (conj H1 H2).
Defined.

(** * Further properties of the audit command *)

(** The command rejects only with the rejection of a file that cannot be
    read or with the one of the report writer: none of its own steps fails.
    When it resolves, every file was read, the payload carries the fixed
    summary and the files that the writer returned for the sorted rows. *)
Theorem run_rejects_only_with_its_collaborators
    (glob : string → list string → list string) (ignore : list string)
    (readFile : string → outcome string)
    (catch : Catcher.t → string → string → list MatchRecord.t)
    (generateReports : list obj → list column → outcome (list string))
    (w : world) :
  match (run glob ignore readFile catch generateReports w).2 with
  | Resolved p =>
      Forall (readable readFile) (glob pattern ignore)
      ∧ outputString p = "Processed callIns and callOuts audit"
      ∧ generateReports (reportObjects readFile catch (glob pattern ignore)) columns
        = Resolved (reportFiles p)
  | Rejected e =>
      (∃ file, file ∈ glob pattern ignore ∧ readFile file = Rejected e)
      ∨ generateReports (reportObjects readFile catch (glob pattern ignore)) columns
        = Rejected e
  end.
Proof.
  destruct (readable_or_not readFile (glob pattern ignore))
    as [Hall|(pre & file & post & e & Hfiles & Hpre & He)].
  - destruct (run_readable glob ignore readFile catch generateReports w Hall)
      as (w' & a & -> & _). cbn [snd].
    destruct (generateReports _ _) as [fs|e]; [done|by right].
  - rewrite (run_unreadable glob ignore readFile catch generateReports w pre file post e)
      by done.
    cbn [snd]. left. exists file. split; [|done]. rewrite Hfiles. set_solver.
Qed.



Lemma sortWith_sorted_id {A} (cmp : A → A → Z) (l : list A) :
  StronglySorted (λ x y, (cmp x y <= 0)%Z) l → sortWith cmp l = l.
Proof.
  induction 1 as [|x l Hl IH Hx]; [done|]. cbn [sortWith]. rewrite IH.
  destruct Hx as [|y l' Hy _]; [done|]. cbn [insertWith].
  by rewrite (proj2 (Z.leb_le _ _) Hy).
Qed.

Lemma StronglySorted_zip {A B} (R : B → B → Prop) (ls : list A) (os : list B) :
  StronglySorted R os → StronglySorted (λ p q, R p.2 q.2) (zip ls os).
Proof.
  intros Hs. revert ls. induction Hs as [|o os Hs IH Ho]; intros [|l ls]; cbn;
    try constructor; [apply IH|].
  apply Forall_forall. intros [l' o'] Hin.
  apply elem_of_zip_r in Hin. cbn in *.
  rewrite Forall_forall in Ho. by apply Ho.
Qed.

Lemma StronglySorted_rowObjects (rows : list ReportRow.t) :
  StronglySorted rowLe rows →
  StronglySorted (λ x y, (compareFunc sortKeys sortOrder x y <= 0)%Z) (rowObject <$> rows).
Proof.
  induction 1 as [|r rows Hs IH Hr]; cbn; constructor; [done|].
  apply Forall_fmap. eapply Forall_impl; [exact Hr|].
  intros r' Hle. by apply compareRows_le.
Qed.

(** Sorting an array whose rows are already in the order of the report
    changes nothing: the array keeps its references as they are. *)
Theorem sorted_rows_stay_in_place
    (w : world) (arr : loc) (ls : list loc) (rows : list ReportRow.t) :
  heap w !! arr = Some (CArr ls) →
  rowsAt (heap w) ls (rowObject <$> rows) →
  StronglySorted rowLe rows →
  sortArray arr sortKeys sortOrder w = (w, Resolved arr).
Proof.
  intros Ha Hrows Hs. unfold sortArray.
  erewrite bind_resolved; [|by apply getArray_resolved].
  erewrite bind_resolved; [|by apply mapM_getObject].
  rewrite sortWith_sorted_id
    by (apply (StronglySorted_zip (λ x y, (compareFunc sortKeys sortOrder x y <= 0)%Z)),
        StronglySorted_rowObjects, Hs).
  rewrite fst_zip by (apply Forall2_length in Hrows; lia).
  unfold bind, store, ret. cbn. rewrite insert_id by done. by destruct w.
Qed.

Lemma sorted_rows_stay_in_place_witness :
  sortArray 2 sortKeys sortOrder
    (mkWorld {[ 0 := CObj (rowObject rowA); 1 := CObj (rowObject rowB); 2 := CArr [0; 1] ]} [])
  = (mkWorld {[ 0 := CObj (rowObject rowA); 1 := CObj (rowObject rowB); 2 := CArr [0; 1] ]} [],
     Resolved 2).
Proof.
  apply (sorted_rows_stay_in_place _ 2 [0; 1] [rowA; rowB]).
  - reflexivity.
  - repeat constructor.
  - apply SSorted_cons; [apply SSorted_cons; constructor|].
    apply Forall_cons_2; [|constructor].
    right. split; [reflexivity|]. right. split; [reflexivity|]. left. reflexivity.
Defined.

Lemma prefix_append (sub post : string) : String.prefix sub (sub +:+ post) = true.
Proof.
  induction sub as [|c sub IH]; [by rewrite append_nil_l, prefix_nil|].
  rewrite append_cons, prefix_cons. by destruct (ascii_dec c c).
Qed.

Lemma includes_append (pre sub post : string) :
  includes (pre +:+ sub +:+ post) sub = true.
Proof.
  induction pre as [|a pre IH].
  - rewrite append_nil_l. destruct (sub +:+ post) eqn:E; cbn [includes];
      rewrite <- E, prefix_append; reflexivity.
  - rewrite append_cons. cbn [includes]. rewrite IH. apply orb_true_r.
Qed.

(** A file is left out of the audit wherever the test marker stands in its
    text, and whatever follows the exclusion marker at its beginning:
    nothing is recorded for it, whatever the matcher would find. *)
Theorem marker_anywhere_skips_file
    (catch : Catcher.t → string → string → list MatchRecord.t)
    (cs : list Catcher.t) (file pre post : string) :
  skipped (pre +:+ "@isTest" +:+ post) = true
  ∧ skipped ("hidden" +:+ post) = true
  ∧ fileMatches catch cs file (pre +:+ "@isTest" +:+ post) = []
  ∧ fileMatches catch cs file ("hidden" +:+ post) = [].
Proof.
  assert (H1 : skipped (pre +:+ "@isTest" +:+ post) = true).
  { unfold skipped. rewrite includes_append. apply orb_true_r. }
  assert (H2 : skipped ("hidden" +:+ post) = true).
  { unfold skipped, startsWith. by rewrite prefix_append. }
  split; [exact H1|]. split; [exact H2|].
  split; by apply skipped_fileMatches.
Qed.

Lemma prefix_take (p : string) (n : nat) (s : string) :
  String.prefix p (take n s) = true → String.prefix p s = true.
Proof.
  revert n s. induction p as [|c p IH]; intros n s; [by rewrite !prefix_nil|].
  destruct n as [|n]; [by rewrite take_0, prefix_cons_nil|].
  destruct s as [|a s]; [done|]. rewrite take_S, !prefix_cons.
  destruct (ascii_dec c a); [apply IH|done].
Qed.

Lemma occursAt_take (c : ascii) (sub s : string) (i j : nat) :
  occursAt (take i s) (String c sub) j → occursAt s (String c sub) j ∧ j < i.
Proof.
  revert s j. induction i as [|i IH]; intros s j [Hl Hp].
  - rewrite take_0 in *. destruct j; simpl in *; [done|lia].
  - destruct s as [|a s].
    { destruct j; simpl in *; [done|lia]. }
    rewrite take_S in *. destruct j as [|j].
    + rewrite drop_0, <- (take_S a s i) in Hp. apply prefix_take in Hp.
      split; [|lia]. split; [simpl; lia|by rewrite drop_0].
    + rewrite drop_S in Hp. simpl in Hl.
      destruct (IH s j) as [[Hl' Hp'] Hlt]; [split; [lia|done]|].
      split; [|lia]. split; [simpl; lia|by rewrite drop_S].
Qed.

Lemma nameSpaceOf_indexOf (fileName : string) :
  nameSpaceOf fileName
  = match indexOf fileName "__" with
    | Some i => take i fileName
    | None => "Custom"
    end.
Proof.
  unfold nameSpaceOf. rewrite includes_indexOf.
  destruct (indexOf fileName "__") as [i|] eqn:E.
  - rewrite bool_decide_eq_true_2 by eauto.
    unfold split. cbn [list_lookup_total].
    change ((split_go "__" 0 fileName).1 = take i fileName).
    rewrite split_go_head by done. by rewrite E.
  - rewrite bool_decide_eq_false_2; [done|]. by intros [? ?].
Qed.

(** The name space of a row never contains the separator [__]; it is empty
    when the file name begins with the separator. *)
Theorem nameSpace_has_no_separator (item : MatchRecord.t) :
  includes (ReportRow.nameSpace (toRow item)) "__" = false
  ∧ (startsWith (MatchRecord.fileName item) "__" = true →
     ReportRow.nameSpace (toRow item) = EmptyString).
Proof.
  cbn [toRow ReportRow.nameSpace]. generalize (MatchRecord.fileName item).
  intros fileName. rewrite nameSpaceOf_indexOf. split.
  - destruct (indexOf fileName "__") as [i|] eqn:E; [|reflexivity].
    apply indexOf_Some in E as [_ Hmin].
    rewrite includes_indexOf. apply bool_decide_eq_false_2. intros [j Hj].
    apply indexOf_Some in Hj as [Hj _].
    apply occursAt_take in Hj as [Hj Hlt]. by apply (Hmin j).
  - unfold startsWith. intros Hp.
    destruct fileName as [|a s]; cbn [indexOf]; rewrite Hp; apply take_0.
Qed.

(** ** The patterns of the catchers *)

Lemma exec_here_group_stops ic da pre t s n g :
  LazyGroup ∉ pre →
  exec_here ic da (pre ++ [LazyGroup; Lit t]) s = Some (n, g) →
  Forall (λ a, lit_matches ic t a = false) (String.list_ascii_of_string g).
Proof.
  intros Hpre. revert s n g. induction pre as [|nd pre IH]; intros s n g.
  - cbn [app exec_here]. revert n g. induction s as [|a s IHs]; intros n g; [done|].
    destruct (lit_matches ic t a) eqn:Ea; cbn [fmap option_fmap option_map].
    + intros [= <- <-]. constructor.
    + destruct (dot_matches da a); [|done].
      match goal with |- context [fmap _ ?x] =>
        case_eq x; [intros [n' g'] E' | intros E'] end; [|done].
      intros [= <- <-]. cbn. constructor; [done|]. by eapply IHs.
  - apply not_elem_of_cons in Hpre as [Hnd Hpre]. specialize (IH Hpre).
    destruct nd as [c|rs|]; [| |done].
    + cbn [app exec_here]. destruct s as [|a s]; [done|].
      destruct (lit_matches ic c a); [|done].
      destruct (exec_here ic da (pre ++ [LazyGroup; Lit t]) s) as [[n' g']|] eqn:E; [|done].
      intros [= <- <-]. by eapply IH.
    + cbn [app exec_here]. revert n g. induction s as [|a s IHs]; intros n g.
      * apply IH.
      * destruct (set_matches ic rs a); [|apply IH].
        match goal with |- context [match ?x with Some _ => _ | None => _ end] =>
          case_eq x; [intros [n' g'] E | intros E] end.
        -- intros [= <- <-]. by eapply IHs.
        -- apply IH.
Qed.

Lemma toUpper_idemp a : toUpper (toUpper a) = toUpper a.
Proof. destruct a as [[] [] [] [] [] [] [] []]; reflexivity. Qed.

Lemma captures_stop r pre t text :
  source r = pre ++ [LazyGroup; Lit t] → LazyGroup ∉ pre →
  Forall (λ g, t ∉ String.list_ascii_of_string g) (captures r text).
Proof.
  intros Hsrc Hpre. unfold captures. apply Forall_fmap.
  eapply Forall_impl; [apply matchAll_sound|]. intros m [_ Hm]. cbn.
  unfold exec in Hm. rewrite Hsrc in Hm.
  apply exec_here_group_stops in Hm; [|done].
  intros Hin. rewrite Forall_forall in Hm. specialize (Hm t Hin).
  unfold lit_matches in Hm. destruct (ignoreCase r).
  - by rewrite bool_decide_eq_true_2 in Hm.
  - by rewrite bool_decide_eq_true_2 in Hm.
Qed.

(** The detail patterns of the catchers end with a capture group and a
    closing character: a brace for the web service name, a parenthesis for
    the REST resource, a semicolon for the end point and an angle bracket
    for the action.  No captured text contains the closing character of its
    pattern, in any file. *)
Theorem captures_stop_at_their_terminator :
  (λ c, terminator ∘ DetailExtractor.regex <$> Catcher.detail c) <$> catchers
  = [ [Some "{"%char]; [Some ")"%char]; [Some ";"%char; Some ">"%char] ]
  ∧ Forall (λ c,
       Forall (λ d, ∀ text t,
                 terminator (DetailExtractor.regex d) = Some t →
                 Forall (λ g, t ∉ String.list_ascii_of_string g)
                        (captures (DetailExtractor.regex d) text))
              (Catcher.detail c))
      catchers.
Proof.
  split; [reflexivity|].
  assert (Hlits : ∀ l : list ascii, LazyGroup ∉ Lit <$> l).
  { intros l (a & Ha & _)%list_elem_of_fmap. discriminate. }
  unfold catchers. repeat (constructor; cbn [Catcher.detail]);
    intros text t [= <-]; cbn [DetailExtractor.regex].
  - eapply captures_stop; [reflexivity|]. apply Hlits.
  - eapply captures_stop; [reflexivity|]. apply Hlits.
  - eapply captures_stop; [reflexivity|]. apply Hlits.
  - eapply (captures_stop _ (lits "<soapenv:Body><" ++ [StarSet nameChars; Lit ":"%char]));
      [reflexivity|].
    unfold lits. rewrite not_elem_of_app. split; [apply Hlits|].
    rewrite !not_elem_of_cons. repeat split; try discriminate. apply not_elem_of_nil.
Qed.

Lemma lit_matches_upper c a : lit_matches true c (toUpper a) = lit_matches true c a.
Proof. unfold lit_matches. by rewrite toUpper_idemp. Qed.

Lemma exec_here_lits_upper da (l : list ascii) s :
  exec_here true da (Lit <$> l) (upperCase s) = exec_here true da (Lit <$> l) s.
Proof.
  revert s. induction l as [|c l IH]; intros s; [done|].
  cbn [fmap list_fmap exec_here]. destruct s as [|a s]; cbn [upperCase]; [done|].
  rewrite lit_matches_upper. destruct (lit_matches true c a); [|done].
  cbn [fmap list_fmap] in IH. by rewrite IH.
Qed.

Lemma scan_upper r (l : list ascii) pos skip s :
  ignoreCase r = true → source r = Lit <$> l →
  scan r pos skip (upperCase s) = scan r pos skip s.
Proof.
  intros Hi Hsrc.
  assert (Hexec : ∀ s, exec r (upperCase s) = exec r s).
  { intros s'. unfold exec. rewrite Hi, Hsrc. apply exec_here_lits_upper. }
  revert pos skip. induction s as [|a s IH]; intros pos skip; [done|].
  destruct skip as [|k].
  - change (upperCase (String a s)) with (String (toUpper a) (upperCase s)) at 1.
    cbn [scan].
    change (String (toUpper a) (upperCase s)) with (upperCase (String a s)).
    rewrite Hexec. destruct (exec r (String a s)) as [m|]; by rewrite IH.
  - cbn [upperCase scan]. apply IH.
Qed.

(** The primary patterns of the catchers ignore the case of the letters:
    a text and the same text in upper case have the same matches, at the
    same places, and so the same number of matches. *)
Theorem primary_patterns_ignore_case (text : string) :
  Forall (λ c,
      matchAll (Catcher.regex c) (upperCase text) = matchAll (Catcher.regex c) text
      ∧ matchCount (Catcher.regex c) (upperCase text)
        = matchCount (Catcher.regex c) text)
    catchers.
Proof.
  assert (H : ∀ r (l : list ascii), ignoreCase r = true → source r = Lit <$> l →
              matchAll r (upperCase text) = matchAll r text
              ∧ matchCount r (upperCase text) = matchCount r text).
  { intros r l Hi Hsrc. unfold matchCount, matchAll.
    by rewrite (scan_upper r l). }
  unfold catchers. repeat apply Forall_cons_2; [..|apply Forall_nil_2];
    cbn [Catcher.regex]; (eapply H; [reflexivity|unfold lits; reflexivity]).
Qed.

(** * The command [hardis:org:diagnose:unusedusers] *)

Module DiagnoseUnusedUsersFacts.
Import DiagnoseUnusedUsers.

Ltac run_simpl :=
  cbn -[pretty String.append unusedUsersQuery notifDetailText showNumber] in *.

(** The paths of [run]: whether the question is asked, and how each awaited
    call settles. *)
Ltac run_cases E :=
  unfold run, manageNotifications, listUnusedUsersWithSfdcLicense, uxLog, call,
         emit, bind, modify, get, ret, daysInEffect, queryEvents in *;
  run_simpl;
  destruct (negb (isCI E) && negb (truthyNumber (days (theFlags E))));
  [destruct (prompts E daysQuestion) as [?d|?e]|];
  run_simpl;
  try (destruct (bulkQuery E _) as [[|?u ?users]|?e] eqn:?Hquery;
       run_simpl;
       try (destruct (generateReportPath E _ _) as [?path|?e] eqn:?Hpath;
            run_simpl;
            try (destruct (generateCsvFile E _ _) as [?res|?e] eqn:?Hcsv;
                 run_simpl;
                 try (destruct (getOrgMarkdown E _) as [?md|?e] eqn:?Hmd;
                      run_simpl;
                      try (destruct (getNotificationButtons E) as [?bs|?e] eqn:?Hbs;
                           run_simpl)))));
  try case_bool_decide; run_simpl.

Lemma append_assoc (a b c : string) : (a +:+ b) +:+ c = a +:+ b +:+ c.
Proof. induction a as [|x a IH]; [done|]. by rewrite !append_cons, IH. Qed.

(** The detail of the notification is its heading followed by one line per
    user, in the order of the users. *)
Theorem notification_lists_every_user {user} (userText : user → string)
    (users : list user) :
  notifDetailText userText users
  = ("*Related users*:" +:+ newLine)
    +:+ foldr (λ u rest, "• " +:+ userText u +:+ newLine +:+ rest) EmptyString users.
Proof.
  unfold notifDetailText. generalize ("*Related users*:" +:+ newLine).
  induction users as [|u users IH]; intros header; cbn [fold_left foldr].
  - by rewrite append_nil_r.
  - rewrite IH. by rewrite !append_assoc.
Qed.

(** The exit code of the process is set only when one of the arguments is
    [unusedusers], and then to the status returned; a command that rejects
    leaves it as it was. *)
Theorem exit_code_only_for_unusedusers {user buttons} (userText : user → string)
    (E : env user buttons) (s : state user buttons) :
  exitCode (run userText E s).1
  = match (run userText E s).2 with
    | Resolved p =>
        if bool_decide ("unusedusers" ∈ default [] (argv E)) then Some (status p)
        else exitCode s
    | Rejected _ => exitCode s
    end.
Proof. run_cases E; done. Qed.

(** The users returned are the records of the query made with the number of
    days in effect.  Without any, the status is 0 and the message says that
    no unused user was found; with some, the status is 1 and the message
    counts them, in the singular for one user only. *)
Theorem status_reflects_unused_users {user buttons} (userText : user → string)
    (E : env user buttons) (x : option Z) (t : list (event user buttons))
    (s' : state user buttons) (p : payload user) :
  run userText E (newInstance x t) = (s', Resolved p) →
  daysInEffect E = Resolved (lastNdays s')
  ∧ bulkQuery E (unusedUsersQuery (lastNdays s')) = Resolved (resultUsers p)
  ∧ ((resultUsers p = []
      ∧ status p = 0%Z
      ∧ resultMessage p = "No unused users have been found"
      ∧ summary p = "All users have logged in to " +:+ instanceUrl E
                    +:+ " within the last " +:+ showNumber (lastNdays s') +:+ " days!")
     ∨ (resultUsers p ≠ []
        ∧ status p = 1%Z
        ∧ resultMessage p
          = pretty (length (resultUsers p)) +:+ " unused "
            +:+ (if length (resultUsers p) =? 1 then "user has" else "users have")
            +:+ " been found"
        ∧ summary p
          = pretty (length (resultUsers p)) +:+ " active "
            +:+ (if length (resultUsers p) =? 1 then "user has" else "users have")
            +:+ " not logged in to " +:+ instanceUrl E +:+ " in the last "
            +:+ showNumber (lastNdays s') +:+ " days!")).
Proof.
  intros H. run_cases E; simplify_eq; run_simpl;
    (split; [done|]); (split; [done|]); (by left) || (by right).
Qed.

Lemma status_reflects_unused_users_witness :
  bulkQuery (sampleEnv true [] (Some 90%Z) (Resolved ["ann"]) (Resolved (mkFilesRes None)))
            (unusedUsersQuery (Some 90%Z))
  = Resolved ["ann"]
  ∧ resultMessage
      (mkPayload 1 "1 unused user has been found"
         "1 active user has not logged in to https://org.my.salesforce.com in the last 90 days!"
         ["ann"] (Some "hardis-report/unused-users.csv") None)
    = "1 unused user has been found".
Proof.
  destruct (status_reflects_unused_users id
              (sampleEnv true [] (Some 90%Z) (Resolved ["ann"]) (Resolved (mkFilesRes None)))
              None []
              (run id (sampleEnv true [] (Some 90%Z) (Resolved ["ann"])
                         (Resolved (mkFilesRes None)))
                   (newInstance None [])).1
              (mkPayload 1 "1 unused user has been found"
                 "1 active user has not logged in to https://org.my.salesforce.com in the last 90 days!"
                 ["ann"] (Some "hardis-report/unused-users.csv") None))
    as (_ & H & _).
  - vm_compute. reflexivity.
  - split; [exact H|reflexivity].
Defined.

(** Without unused users nothing is written and nobody is notified: the
    calls made are the question, if it is asked, the two lines logged and
    the query; the payload names the output file of the flag, if any, and no
    spreadsheet. *)
Theorem no_unused_users_no_export {user buttons} (userText : user → string)
    (E : env user buttons) (x : option Z) (t : list (event user buttons))
    (s' : state user buttons) (p : payload user) :
  run userText E (newInstance x t) = (s', Resolved p) →
  resultUsers p = [] →
  trace s' = t ++ queryEvents E (lastNdays s')
  ∧ csvLogFile p = orNull (outputfile (theFlags E))
  ∧ xlsxLogFile p = None.
Proof.
  intros H Hp. run_cases E; simplify_eq; run_simpl; simplify_eq;
    rewrite <- ?(assoc_L (++)); done.
Qed.

Lemma no_unused_users_no_export_witness :
  trace (run id (sampleEnv false [] None (Resolved []) (Resolved (mkFilesRes None)))
             (newInstance None [])).1
  = [ Prompt daysQuestion;
      Log "Extracting active users who haven't logged in for a while on https://org.my.salesforce.com ...";
      Log ("Query: " +:+ unusedUsersQuery (Some 30%Z));
      Query (unusedUsersQuery (Some 30%Z)) ].
Proof.
  destruct (no_unused_users_no_export id
              (sampleEnv false [] None (Resolved []) (Resolved (mkFilesRes None)))
              None []
              (run id (sampleEnv false [] None (Resolved []) (Resolved (mkFilesRes None)))
                   (newInstance None [])).1
              (mkPayload 0 "No unused users have been found"
                 "All users have logged in to https://org.my.salesforce.com within the last 30 days!"
                 [] None None))
    as (H & _).
  - vm_compute. reflexivity.
  - reflexivity.
  - rewrite H. vm_compute. reflexivity.
Defined.

(** In continuous integration the question is never asked: the query is
    made with the number of days of the flag as it is, and without the flag
    its constraint reads [LAST_N_DAYS:undefined]. *)
Theorem ci_never_prompts {user buttons} (userText : user → string)
    (E : env user buttons) (s : state user buttons) :
  isCI E = true →
  (∃ rest,
     trace (run userText E s).1
     = trace s
       ++ [ Log (cyan E ("Extracting active users who haven't logged in for a while on "
                         +:+ instanceUrl E +:+ " ..."));
            Log (grey E ("Query: " +:+ italic E (unusedUsersQuery (days (theFlags E)))));
            Query (unusedUsersQuery (days (theFlags E))) ]
       ++ rest
     ∧ Forall (λ e, e ≠ Prompt daysQuestion) rest)
  ∧ whereConstraint None
    = "WHERE IsActive = true AND LastLoginDate != LAST_N_DAYS:undefined AND LastLoginDate != NULL AND Profile.UserLicense.LicenseDefinitionKey = 'SFDC' ".
Proof.
  intros Hci. split; [|reflexivity].
  unfold run, manageNotifications, listUnusedUsersWithSfdcLicense, uxLog, call,
         emit, bind, modify, get, ret.
  rewrite Hci. run_simpl.
  destruct (bulkQuery E _) as [[|u users]|e]; run_simpl;
    [|destruct (generateReportPath E _ _) as [path|e]; run_simpl;
      [destruct (generateCsvFile E _ _) as [res|e]; run_simpl;
       [destruct (getOrgMarkdown E _) as [md|e]; run_simpl;
        [destruct (getNotificationButtons E) as [bs|e]; run_simpl|]|]|]|];
    try case_bool_decide; run_simpl;
    rewrite <- !(assoc_L (++)); cbn [app];
    eexists; (split; [reflexivity|]); repeat constructor; discriminate.
Qed.

Lemma ci_never_prompts_witness :
  ∃ rest,
    trace (run id (sampleEnv true [] None (Resolved []) (Resolved (mkFilesRes None)))
               (newInstance None [])).1
    = [] ++ [ Log "Extracting active users who haven't logged in for a while on https://org.my.salesforce.com ...";
              Log ("Query: " +:+ unusedUsersQuery None);
              Query (unusedUsersQuery None) ] ++ rest.
Proof.
  destruct (ci_never_prompts id
              (sampleEnv true [] None (Resolved []) (Resolved (mkFilesRes None)))
              (newInstance None []) eq_refl) as ((rest & H & _) & _).
  exists rest. exact H.
Defined.

(** Run by hand without a number of days, or with zero days, the command
    asks for the period first.  A question that rejects ends the command
    there; otherwise the answer, even an absent one, is the number of days
    of the query. *)
Theorem missing_days_are_asked_by_hand {user buttons} (userText : user → string)
    (E : env user buttons) (s : state user buttons) :
  isCI E = false →
  days (theFlags E) = None ∨ days (theFlags E) = Some 0%Z →
  match prompts E daysQuestion with
  | Rejected e =>
      (run userText E s).2 = Rejected e
      ∧ trace (run userText E s).1 = trace s ++ [Prompt daysQuestion]
  | Resolved answer =>
      ∃ rest,
        trace (run userText E s).1
        = trace s
          ++ [ Prompt daysQuestion;
               Log (cyan E ("Extracting active users who haven't logged in for a while on "
                            +:+ instanceUrl E +:+ " ..."));
               Log (grey E ("Query: " +:+ italic E (unusedUsersQuery answer)));
               Query (unusedUsersQuery answer) ]
          ++ rest
  end.
Proof.
  intros Hci Hdays.
  assert (Hfalsy : truthyNumber (days (theFlags E)) = false)
    by (destruct Hdays as [-> | ->]; reflexivity).
  unfold run, manageNotifications, listUnusedUsersWithSfdcLicense, uxLog, call,
         emit, bind, modify, get, ret.
  rewrite Hci. run_simpl. rewrite Hfalsy. run_simpl.
  destruct (prompts E daysQuestion) as [answer|e]; run_simpl; [|done].
  destruct (bulkQuery E _) as [[|u users]|e]; run_simpl;
    [|destruct (generateReportPath E _ _) as [path|e]; run_simpl;
      [destruct (generateCsvFile E _ _) as [res|e]; run_simpl;
       [destruct (getOrgMarkdown E _) as [md|e]; run_simpl;
        [destruct (getNotificationButtons E) as [bs|e]; run_simpl|]|]|]|];
    try case_bool_decide; run_simpl;
    rewrite <- !(assoc_L (++)); cbn [app];
    eexists; reflexivity.
Qed.

Lemma missing_days_are_asked_by_hand_witness :
  ∃ rest,
    trace (run id (sampleEnv false [] (Some 0%Z) (Resolved []) (Resolved (mkFilesRes None)))
               (newInstance None [])).1
    = [] ++ [ Prompt daysQuestion;
              Log "Extracting active users who haven't logged in for a while on https://org.my.salesforce.com ...";
              Log ("Query: " +:+ unusedUsersQuery (Some 30%Z));
              Query (unusedUsersQuery (Some 30%Z)) ] ++ rest.
Proof.
  exact (missing_days_are_asked_by_hand id
           (sampleEnv false [] (Some 0%Z) (Resolved []) (Resolved (mkFilesRes None)))
           (newInstance None []) eq_refl (or_intror eq_refl)).
Defined.

(** When the query rejects, so does the command, with the same error: no
    file is written, nobody is notified, and the status and the exit code
    are left as they were. *)
Theorem query_failure_rejects {user buttons} (userText : user → string)
    (E : env user buttons) (s : state user buttons) (d : option Z) (e : error) :
  daysInEffect E = Resolved d →
  bulkQuery E (unusedUsersQuery d) = Rejected e →
  (run userText E s).2 = Rejected e
  ∧ trace (run userText E s).1 = trace s ++ queryEvents E d
  ∧ statusCode (run userText E s).1 = statusCode s
  ∧ exitCode (run userText E s).1 = exitCode s.
Proof.
  intros Hd Hq.
  unfold run, manageNotifications, listUnusedUsersWithSfdcLicense, uxLog, call,
         emit, bind, modify, get, ret, daysInEffect, queryEvents in *.
  run_simpl.
  destruct (negb (isCI E) && negb (truthyNumber (days (theFlags E))));
    [destruct (prompts E daysQuestion) as [d'|e']|];
    simplify_eq; run_simpl; rewrite Hq; run_simpl;
    by rewrite <- !(assoc_L (++)).
Qed.

Lemma query_failure_rejects_witness :
  (run id (sampleEnv true ["unusedusers"] (Some 7%Z) (Rejected (IOError "INVALID_SESSION_ID"))
             (Resolved (mkFilesRes None)))
       (newInstance None [])).2
  = Rejected (IOError "INVALID_SESSION_ID")
  ∧ exitCode (run id (sampleEnv true ["unusedusers"] (Some 7%Z)
                        (Rejected (IOError "INVALID_SESSION_ID"))
                        (Resolved (mkFilesRes None)))
                  (newInstance None [])).1
    = None.
Proof.
  destruct (query_failure_rejects id
              (sampleEnv true ["unusedusers"] (Some 7%Z)
                 (Rejected (IOError "INVALID_SESSION_ID")) (Resolved (mkFilesRes None)))
              (newInstance None []) (Some 7%Z) (IOError "INVALID_SESSION_ID")
              eq_refl eq_refl) as (H1 & _ & _ & H2).
  split; [exact H1|exact H2].
Defined.

(** When the report cannot be written, the command rejects before the
    notification: the calls made after the query are the two of the report,
    and the exit code is left as it was. *)
Theorem report_failure_skips_notification {user buttons} (userText : user → string)
    (E : env user buttons) (s : state user buttons) (d : option Z)
    (users : list user) (path : string) (e : error) :
  daysInEffect E = Resolved d →
  bulkQuery E (unusedUsersQuery d) = Resolved users →
  users ≠ [] →
  generateReportPath E "unused-users" (orNull (outputfile (theFlags E))) = Resolved path →
  generateCsvFile E users path = Rejected e →
  (run userText E s).2 = Rejected e
  ∧ trace (run userText E s).1
    = trace s ++ queryEvents E d
      ++ [ ReportPath "unused-users" (orNull (outputfile (theFlags E)));
           CsvFile users path ]
  ∧ exitCode (run userText E s).1 = exitCode s.
Proof.
  intros Hd Hq Hne Hpath Hcsv.
  unfold run, manageNotifications, listUnusedUsersWithSfdcLicense, uxLog, call,
         emit, bind, modify, get, ret, daysInEffect, queryEvents in *.
  run_simpl.
  destruct users as [|u users]; [done|].
  destruct (negb (isCI E) && negb (truthyNumber (days (theFlags E))));
    [destruct (prompts E daysQuestion) as [d'|e']|];
    simplify_eq; run_simpl; rewrite Hq; run_simpl; rewrite Hpath; run_simpl;
    rewrite Hcsv; run_simpl;
    by rewrite <- !(assoc_L (++)).
Qed.

Lemma report_failure_skips_notification_witness :
  (run id (sampleEnv true [] (Some 7%Z) (Resolved ["ann"; "bob"])
             (Rejected (ExportError "EACCES")))
       (newInstance None [])).2
  = Rejected (ExportError "EACCES").
Proof.
  destruct (report_failure_skips_notification id
              (sampleEnv true [] (Some 7%Z) (Resolved ["ann"; "bob"])
                 (Rejected (ExportError "EACCES")))
              (newInstance None []) (Some 7%Z) ["ann"; "bob"]
              "hardis-report/unused-users.csv" (ExportError "EACCES")
              eq_refl eq_refl) as (H & _).
  - discriminate.
  - reflexivity.
  - reflexivity.
  - exact H.
Defined.

(** With unused users and every call resolved, the report is written to the
    generated path, which the payload names together with the spreadsheet
    of the report, and one notification is posted after it: a warning of
    type [UNUSED_USERS] that lists the users and attaches the spreadsheet
    when there is one. *)
Theorem unused_users_are_reported {user buttons} (userText : user → string)
    (E : env user buttons) (x : option Z) (t : list (event user buttons))
    (d : option Z) (users : list user) (path : string) (res : filesRes)
    (orgMarkdown : string) (notifButtons : buttons) :
  daysInEffect E = Resolved d →
  bulkQuery E (unusedUsersQuery d) = Resolved users →
  users ≠ [] →
  generateReportPath E "unused-users" (orNull (outputfile (theFlags E))) = Resolved path →
  generateCsvFile E users path = Resolved res →
  getOrgMarkdown E (instanceUrl E) = Resolved orgMarkdown →
  getNotificationButtons E = Resolved notifButtons →
  ∃ s' p,
    run userText E (newInstance x t) = (s', Resolved p)
    ∧ status p = 1%Z
    ∧ resultUsers p = users
    ∧ csvLogFile p = Some path
    ∧ xlsxLogFile p = xlsxFile res
    ∧ trace s'
      = t ++ queryEvents E d
        ++ [ ReportPath "unused-users" (orNull (outputfile (theFlags E)));
             CsvFile users path;
             Notification
               (mkNotification "UNUSED_USERS"
                  (pretty (length users) +:+ " active users have not logged in to "
                   +:+ orgMarkdown +:+ " within the last " +:+ showNumber d +:+ " days.")
                  [notifDetailText userText users]
                  notifButtons
                  "warning"
                  (match xlsxFile res with
                   | Some (String a file) => [String a file]
                   | _ => []
                   end)) ].
Proof.
  intros Hd Hq Hne Hpath Hcsv Hmd Hbs.
  unfold run, manageNotifications, listUnusedUsersWithSfdcLicense, uxLog, call,
         emit, bind, modify, get, ret, daysInEffect, queryEvents in *.
  run_simpl.
  destruct users as [|u users]; [done|].
  assert (Hfiles : (if truthyString (xlsxFile res) then option_list (xlsxFile res) else [])
                   = match xlsxFile res with
                     | Some (String a file) => [String a file]
                     | _ => []
                     end)
    by (destruct (xlsxFile res) as [[|? ?]|]; reflexivity).
  destruct (negb (isCI E) && negb (truthyNumber (days (theFlags E))));
    [destruct (prompts E daysQuestion) as [d'|e']|];
    simplify_eq; run_simpl; rewrite Hq; run_simpl; rewrite Hpath; run_simpl;
    rewrite Hcsv; run_simpl; rewrite Hmd, Hbs; run_simpl;
    case_bool_decide; run_simpl; rewrite Hfiles;
    eexists _, _; (split; [reflexivity|]); run_simpl;
    rewrite <- !(assoc_L (++)); done.
Qed.

Lemma unused_users_are_reported_witness :
  ∃ s' p,
    run id (sampleEnv true ["unusedusers"] (Some 7%Z) (Resolved ["ann"; "bob"])
              (Resolved (mkFilesRes (Some "hardis-report/unused-users.xlsx"))))
        (newInstance None [])
    = (s', Resolved p)
    ∧ status p = 1%Z
    ∧ resultUsers p = ["ann"; "bob"]
    ∧ csvLogFile p = Some "hardis-report/unused-users.csv"
    ∧ xlsxLogFile p = Some "hardis-report/unused-users.xlsx".
Proof.
  destruct (unused_users_are_reported id
              (sampleEnv true ["unusedusers"] (Some 7%Z) (Resolved ["ann"; "bob"])
                 (Resolved (mkFilesRes (Some "hardis-report/unused-users.xlsx"))))
              None [] (Some 7%Z) ["ann"; "bob"] "hardis-report/unused-users.csv"
              (mkFilesRes (Some "hardis-report/unused-users.xlsx"))
              "<https://org.my.salesforce.com>" tt
              eq_refl eq_refl) as (s' & p & H & H1 & H2 & H3 & H4 & _).
  - discriminate.
  - reflexivity.
  - reflexivity.
  - reflexivity.
  - reflexivity.
  - exists s', p. repeat split; assumption.
Defined.

End DiagnoseUnusedUsersFacts.
